(** * Polymer viem plugin: log resolution, proof submission and bounded polling

    A shallow embedding of [src/index.ts] (with the types of
    [src/types/index.ts]).  The plugin resolves an event of a transaction
    receipt to a log position, submits a proof request over JSON-RPC and
    polls the job status a bounded number of times.

    Conventions of the embedding:
    - a JavaScript [number] that is a coordinate (chain id, block number,
      transaction index, log index) is an IEEE 754 binary64 value, modelled
      by [spec_float]; [Number(bigint)] is round-to-nearest-even;
    - attempt counts, intervals and HTTP status codes are integers and are
      modelled in [Z]; the poll loop is also given for a bound that is any
      binary64 number ([wait_number]);
    - [async] code is a state-and-exception computation over the trace of
      observable events (round trips, timers, console lines); the proving
      service is an oracle answering the k-th round trip. *)

From Stdlib Require Import ZArith List String Ascii Bool Lia DecimalString.
From Stdlib Require Import Floats.SpecFloat.
Import ListNotations.

Local Open Scope string_scope.
Local Open Scope Z_scope.

(* ===================================================================== *)
(** ** JavaScript values used by the plugin *)
(* ===================================================================== *)

Module Js.

(** A JavaScript [number]. *)
Definition number : Type := spec_float.

Definition prec : Z := 53.
Definition emax : Z := 1024.

(** [Number(b)] for a bigint [b]: the nearest binary64 value, ties to
    even, infinite beyond the largest finite double. *)
Definition Number (b : Z) : number := binary_normalize prec emax b 0 false.

(** The integer denoted by a number, when it denotes one. *)
Definition to_integer (x : number) : option Z :=
  match x with
  | S754_zero _ => Some 0
  | S754_finite s m e =>
      let sign := if s then (-1) else 1 in
      match e with
      | Z0 => Some (sign * Zpos m)
      | Zpos p => Some (sign * (Zpos m * 2 ^ Zpos p))
      | Zneg p =>
          if Zpos m mod 2 ^ Zpos p =? 0
          then Some (sign * (Zpos m / 2 ^ Zpos p))
          else None
      end
  | _ => None
  end.

Definition is_integer (x : number) : bool :=
  match to_integer x with Some _ => true | None => false end.

(** [x < y] on numbers ([NaN] compares false with everything). *)
Definition lt (x y : number) : bool := SFltb x y.

Definition zero : number := S754_zero false.

(** Truthiness of a number: [0], [-0] and [NaN] are falsy. *)
Definition truthy_number (x : number) : bool :=
  match x with
  | S754_zero _ | S754_nan => false
  | _ => true
  end.

(** Truthiness of a string: only the empty string is falsy. *)
Definition truthy_string (s : string) : bool :=
  match s with
  | EmptyString => false
  | String _ _ => true
  end.

(** Truthiness of an optional string property ([undefined] is falsy). *)
Definition truthy_opt_string (o : option string) : bool :=
  match o with
  | Some s => truthy_string s
  | None => false
  end.

(** [a || b] for an argument [a] that is [undefined] or an integer: [a]
    unless it is [undefined] or [0].  ([NaN], the other falsy number, is
    not an integer.) *)
Definition or_int (a : option Z) (b : Z) : Z :=
  match a with
  | Some n => if n =? 0 then b else n
  | None => b
  end.

(** [a || b] on strings. *)
Definition or_string (a : option string) (b : string) : string :=
  match a with
  | Some s => if truthy_string s then s else b
  | None => b
  end.

(** Decimal rendering of an integer inside a template literal. *)
Definition string_of_int (n : Z) : string :=
  NilZero.string_of_int (Z.to_int n).

(** [TextEncoder().encode]: strings are kept as their UTF-8 bytes. *)
Definition toBytes (s : string) : list Byte.byte := list_byte_of_string s.

(** [Array.prototype.findIndex]: the position of the first element that
    satisfies [p], or [-1]. *)
Fixpoint findIndex_from {A : Type} (p : A -> bool) (l : list A) (i : Z) : Z :=
  match l with
  | [] => -1
  | x :: rest => if p x then i else findIndex_from p rest (i + 1)
  end.

Definition findIndex {A : Type} (p : A -> bool) (l : list A) : Z :=
  findIndex_from p l 0.

(** A thrown [Error] with its message. *)
Inductive Error : Type :=
| mkError (message : string).

Definition message (e : Error) : string :=
  match e with mkError m => m end.

End Js.

(* ===================================================================== *)
(** ** Data model ([src/types/index.ts]) *)
(* ===================================================================== *)

(** [PolymerConfig]: every field but [apiKey] is optional.  [None] is a
    property that is absent from the object, [Some v] one that is present
    with the defined value [v]; the numbers are integers. *)
Module PolymerConfig.
Record t : Type := mk {
  apiUrl : option string;
  apiKey : string;
  maxAttempts : option Z;
  interval : option Z;
  timeout : option Z;
  debug : option bool
}.
End PolymerConfig.

(** [Required<PolymerConfig>]. *)
Module Config.
Record t : Type := mk {
  apiUrl : string;
  apiKey : string;
  maxAttempts : Z;
  interval : Z;
  timeout : Z;
  debug : bool
}.
End Config.

(** [srcBlockNumber: number | bigint]. *)
Inductive BlockNumber : Type :=
| BlockNumber_number (n : Js.number)
| BlockNumber_bigint (b : Z).

Record Log : Type := mkLog {
  topics : list string
}.

Record TransactionReceipt : Type := mkReceipt {
  blockNumber : BlockNumber;
  transactionIndex : Js.number;
  transactionHash : string;
  logs : list Log
}.

(** [PolymerProofOptions]. *)
Module Options.
Record t : Type := mk {
  receipt : option TransactionReceipt;
  eventSignature : option string;
  logIndex : option Js.number;
  maxAttempts : option Z;
  interval : option Z;
  returnJob : option bool
}.
End Options.

(** [ProofRequestParams]. *)
Module Params.
Record t : Type := mk {
  srcChainId : Js.number;
  srcBlockNumber : BlockNumber;
  txIndex : Js.number;
  logIndex : Js.number
}.
End Params.

Inductive JobState : Type :=
| pending
| generating
| complete
| error.

(** [ProofJobStatus]; [extra] holds the additional fields of the reply. *)
Record ProofJobStatus : Type := mkStatus {
  status : JobState;
  proof : option string;
  failureReason : option string;
  extra : list (string * string)
}.

(** The result of [polymerProof]: [ProofJobStatus | ProofJobResponse]. *)
Inductive ProofResult : Type :=
| ResultStatus (s : ProofJobStatus)
| ResultJob (jobId : string) (receipt : TransactionReceipt).

(** The client the plugin extends: only [client.chain?.id] is read. *)
Record PublicClient : Type := mkClient {
  chain_id : option Js.number
}.

Definition terminal (s : JobState) : bool :=
  match s with
  | complete | error => true
  | pending | generating => false
  end.

(* ===================================================================== *)
(** ** Observable events, the proving service, and computations *)
(* ===================================================================== *)

Inductive JsonValue : Type :=
| JNumber (n : Js.number)
| JBigint (b : Z)
| JString (s : string).

(** One JSON-RPC POST: the endpoint, the [Authorization] header and the
    [method] and [params] members of the body. *)
Record RpcRequest : Type := mkRequest {
  url : string;
  authorization : string;
  rpcMethod : string;
  params : list JsonValue
}.

Inductive Event : Type :=
| Fetch (req : RpcRequest)
| SetTimeout (ms : Z)
| ConsoleLog (label : string) (args : list JsonValue)
| ConsoleError (label : string) (args : list JsonValue).

(** The state of the world is the trace of events so far, oldest first. *)
Definition World : Type := list Event.

Definition is_fetch (e : Event) : bool :=
  match e with Fetch _ => true | _ => false end.

Definition is_timer (e : Event) : bool :=
  match e with SetTimeout _ => true | _ => false end.

Definition is_console (e : Event) : bool :=
  match e with ConsoleLog _ _ | ConsoleError _ _ => true | _ => false end.

(** The events that are not console lines. *)
Definition effects (w : World) : list Event :=
  filter (fun e => negb (is_console e)) w.

(** Number of round trips made so far. *)
Definition round_trips (w : World) : nat := List.length (filter is_fetch w).

(** Number of timer suspensions so far. *)
Definition delays (w : World) : nat := List.length (filter is_timer w).

(** What one round trip can produce. *)
Inductive Reply (A : Type) : Type :=
| NetworkFailure (e : Js.Error)
| HttpFailure (code : Z)
| RpcFailure (errorJson : string)
| RpcSuccess (result : A).

Arguments NetworkFailure {A} e.
Arguments HttpFailure {A} code.
Arguments RpcFailure {A} errorJson.
Arguments RpcSuccess {A} result.

(** The proving service: its answer to a request, given how many round
    trips came before. *)
Record Remote : Type := mkRemote {
  requestProofReply : nat -> RpcRequest -> Reply string;
  queryProofReply : nat -> RpcRequest -> Reply ProofJobStatus
}.

Inductive Outcome (A : Type) : Type :=
| Returned (a : A)
| Thrown (e : Js.Error).

Arguments Returned {A} a.
Arguments Thrown {A} e.

(** A computation: runs from a world, ends by returning or throwing, and
    leaves the extended world behind in both cases. *)
Definition M (A : Type) : Type := World -> Outcome A * World.

Definition ret {A : Type} (a : A) : M A := fun w => (Returned a, w).

Definition throw {A : Type} (e : Js.Error) : M A := fun w => (Thrown e, w).

Definition bind {A B : Type} (m : M A) (k : A -> M B) : M B :=
  fun w =>
    match m w with
    | (Returned a, w') => k a w'
    | (Thrown e, w') => (Thrown e, w')
    end.

Definition try_catch {A : Type} (m : M A) (handler : Js.Error -> M A) : M A :=
  fun w =>
    match m w with
    | (Returned a, w') => (Returned a, w')
    | (Thrown e, w') => handler e w'
    end.

Definition emit (e : Event) : M unit := fun w => (Returned tt, (w ++ [e])%list).

Definition lift {A : Type} (o : Outcome A) : M A := fun w => (o, w).

Declare Scope js_scope.
Delimit Scope js_scope with js.

Notation "x <- m ;; k" := (bind m (fun x => k))
  (at level 100, m at next level, right associativity) : js_scope.
Notation "m ;; k" := (bind m (fun _ => k))
  (at level 100, right associativity) : js_scope.

Local Open Scope js_scope.

(* ===================================================================== *)
(** ** The plugin ([src/index.ts]) *)
(* ===================================================================== *)

Definition DEFAULT_CONFIG : Config.t :=
  {| Config.apiUrl := "https://proof.testnet.polymer.zone";
     Config.apiKey := EmptyString;
     Config.maxAttempts := 20;
     Config.interval := 3000;
     Config.timeout := 60000;
     Config.debug := false |}.

Definition or_default {A : Type} (o : option A) (d : A) : A :=
  match o with Some a => a | None => d end.

(** [{ ...defaults, ...config }]: a property that is present in [config]
    overrides the default, an absent one leaves it. *)
Definition mergeConfig (defaults : Config.t) (config : PolymerConfig.t) : Config.t :=
  {| Config.apiUrl := or_default (PolymerConfig.apiUrl config) (Config.apiUrl defaults);
     Config.apiKey := PolymerConfig.apiKey config;
     Config.maxAttempts := or_default (PolymerConfig.maxAttempts config) (Config.maxAttempts defaults);
     Config.interval := or_default (PolymerConfig.interval config) (Config.interval defaults);
     Config.timeout := or_default (PolymerConfig.timeout config) (Config.timeout defaults);
     Config.debug := or_default (PolymerConfig.debug config) (Config.debug defaults) |}.

Module Logger.
Record t : Type := mk {
  log : string -> list JsonValue -> M unit;
  error : string -> list JsonValue -> M unit
}.
End Logger.

(** [createLogger]: both methods write a console line when [enabled] and
    do nothing otherwise. *)
Definition createLogger (enabled : bool) : Logger.t :=
  {| Logger.log := fun label args =>
       if enabled then emit (ConsoleLog ("[Polymer Viem] " ++ label) args) else ret tt;
     Logger.error := fun label args =>
       if enabled then emit (ConsoleError ("[Polymer Viem] " ++ label) args) else ret tt |}.

Definition json_of_block (b : BlockNumber) : JsonValue :=
  match b with
  | BlockNumber_number n => JNumber n
  | BlockNumber_bigint z => JBigint z
  end.

Definition json_of_config (c : Config.t) : list JsonValue :=
  [ JString (Config.apiUrl c); JString (Config.apiKey c);
    JNumber (Js.Number (Config.maxAttempts c));
    JNumber (Js.Number (Config.interval c));
    JNumber (Js.Number (Config.timeout c));
    JString (if Config.debug c then "true" else "false") ].

(** The JSON-RPC request the plugin posts for [method] and [params]. *)
Definition rpc (config : Config.t) (method : string) (args : list JsonValue) : RpcRequest :=
  {| url := Config.apiUrl config;
     authorization := "Bearer " ++ Config.apiKey config;
     rpcMethod := method;
     params := args |}.

(** [log.topics[0] === eventTopic]. *)
Definition leading_topic_is (eventTopic : string) (log : Log) : bool :=
  match topics log with
  | [] => false
  | t :: _ => String.eqb t eventTopic
  end.

Section Plugin.

(** The proving service behind [config.apiUrl]. *)
Variable remote : Remote.

(** viem's [keccak256], from bytes to a hex string. *)
Variable keccak256 : list Byte.byte -> string.

(** [await fetch(...)] followed by [response.json()]: one round trip,
    answered by the service according to its position in the run. *)
Definition fetch {A : Type} (reply : Remote -> nat -> RpcRequest -> Reply A)
    (req : RpcRequest) : M (Reply A) :=
  fun w => (Returned (reply remote (round_trips w) req), (w ++ [Fetch req])%list).

(** The body of the two [try] blocks: a rejected fetch, a non-ok response
    and an error envelope throw; otherwise [data.result] is returned. *)
Definition unwrap {A : Type} (r : Reply A) : M A :=
  match r with
  | NetworkFailure e => throw e
  | HttpFailure code =>
      throw (Js.mkError ("HTTP error! status: " ++ Js.string_of_int code))
  | RpcFailure errorJson =>
      throw (Js.mkError ("Polymer API error: " ++ errorJson))
  | RpcSuccess result => ret result
  end.

(** [typeof srcBlockNumber === 'bigint' ? Number(srcBlockNumber) : srcBlockNumber]
    (index.ts 226). *)
Definition blockNumberField (srcBlockNumber : BlockNumber) : Js.number :=
  match srcBlockNumber with
  | BlockNumber_bigint b => Js.Number b
  | BlockNumber_number n => n
  end.

(** [requestProof] (index.ts 216-265). *)
Definition requestProof (config : Config.t) (srcChainId : Js.number)
    (srcBlockNumber : BlockNumber) (txIndex localLogIndex : Js.number) : M string :=
  let method := "log_requestProof" in
  let params :=
    [ JNumber srcChainId;
      JNumber (blockNumberField srcBlockNumber);
      JNumber txIndex;
      JNumber localLogIndex ] in
  let logger := createLogger (Config.debug config) in
  Logger.log logger "Requesting proof with params:" params ;;
  try_catch
    (response <- fetch requestProofReply (rpc config method params) ;;
     unwrap response)
    (fun err =>
       Logger.error logger "Error requesting proof:" [JString (Js.message err)] ;;
       throw err).

(** [queryProofStatus] (index.ts 274-309). *)
Definition queryProofStatus (config : Config.t) (jobId : string) : M ProofJobStatus :=
  let logger := createLogger (Config.debug config) in
  Logger.log logger "Querying proof status for job:" [JString jobId] ;;
  try_catch
    (response <- fetch queryProofReply (rpc config "log_queryProof" [JString jobId]) ;;
     unwrap response)
    (fun err =>
       Logger.error logger "Error querying proof status:" [JString (Js.message err)] ;;
       throw err).

(** One iteration of the loop of [wait]: [Some r] when the iteration
    returns [r], [None] when it falls through to the next attempt. *)
Definition wait_attempt (config : Config.t) (jobId : string)
    (maxAttempts interval : Z) (attempt : Z) : M (option ProofJobStatus) :=
  let logger := createLogger (Config.debug config) in
  Logger.log logger
    ("Polling attempt " ++ Js.string_of_int attempt ++ "/" ++ Js.string_of_int maxAttempts) [] ;;
  result <- queryProofStatus config jobId ;;
  match status result with
  | complete =>
      Logger.log logger "Proof generation complete!" [] ;;
      ret (Some result)
  | error =>
      throw (Js.mkError ("Proof generation failed: "
                         ++ Js.or_string (failureReason result) "Unknown error"))
  | _ =>
      (if attempt <? maxAttempts
       then
         Logger.log logger
           ("Waiting " ++ Js.string_of_int interval ++ "ms before next attempt...") [] ;;
         emit (SetTimeout interval)
       else ret tt) ;;
      ret None
  end.

(** [for (let attempt = first; ...; attempt++) body], for a loop that has
    [remaining] iterations left; [after] is the code behind the loop. *)
Fixpoint for_attempts {A : Type} (body : Z -> M (option A)) (after : M A)
    (remaining : nat) (attempt : Z) : M A :=
  match remaining with
  | O => after
  | S remaining' =>
      r <- body attempt ;;
      match r with
      | Some a => ret a
      | None => for_attempts body after remaining' (attempt + 1)
      end
  end.

(** [wait] (index.ts 320-354) for an integer [maxAttempts].  The loop runs
    [attempt] from [1] while [attempt <= maxAttempts], that is
    [Z.to_nat maxAttempts] times unless an iteration returns or throws.
    [wait_number] below follows the source for any number, and agrees with
    this definition on integers ([wait_number_integer]). *)
Definition wait (config : Config.t) (jobId : string) (maxAttempts interval : Z)
    : M ProofJobStatus :=
  let logger := createLogger (Config.debug config) in
  Logger.log logger
    ("Polling for proof completion (max " ++ Js.string_of_int maxAttempts
     ++ " attempts, interval " ++ Js.string_of_int interval ++ "ms)") [] ;;
  for_attempts
    (wait_attempt config jobId maxAttempts interval)
    (throw (Js.mkError ("Proof generation timed out after "
                        ++ Js.string_of_int maxAttempts ++ " attempts")))
    (Z.to_nat maxAttempts) 1.

(** [typeof providedLogIndex === "number"]. *)
Definition is_number (o : option Js.number) : bool :=
  match o with Some _ => true | None => false end.

(** The log selection of [polymerProof] (index.ts 104-130): the value of
    [localLogIndex] after the two guards and the scan of the receipt. *)
Definition resolveLogIndex (receipt : TransactionReceipt)
    (eventSignature : option string) (providedLogIndex : option Js.number)
    : Outcome (option Js.number) :=
  if negb (Js.truthy_opt_string eventSignature) && negb (is_number providedLogIndex)
  then Thrown (Js.mkError "eventSignature or logIndex is required")
  else
    if match providedLogIndex with
       | Some n => Js.lt n Js.zero
       | None => false
       end
    then Thrown (Js.mkError "logIndex must be non-negative")
    else
      let localLogIndex := providedLogIndex in
      if negb (is_number providedLogIndex) && Js.truthy_opt_string eventSignature
      then
        let signature := or_default eventSignature EmptyString in
        let eventTopic := keccak256 (Js.toBytes signature) in
        let foundIndex := Js.findIndex (leading_topic_is eventTopic) (logs receipt) in
        if foundIndex =? -1
        then Thrown (Js.mkError ("Event " ++ signature
                                 ++ " not found in transaction receipt"))
        else Returned (Some (Js.Number foundIndex))
      else Returned localLogIndex.

(** [localLogIndex!]: the assertion that the index is defined.  It always
    is after [resolveLogIndex]; an [undefined] would be serialised like
    [NaN]. *)
Definition assert_defined (localLogIndex : option Js.number) : Js.number :=
  or_default localLogIndex S754_nan.

(** [polymerProof] (index.ts 77-157). *)
Definition polymerProof (client : PublicClient) (polymerConfig : Config.t)
    (options : Options.t) : M ProofResult :=
  let logger := createLogger (Config.debug polymerConfig) in
  match Options.receipt options with
  | None => throw (Js.mkError "Transaction receipt is required")
  | Some receipt =>
      let chainId := chain_id client in
      if negb (match chainId with Some n => Js.truthy_number n | None => false end)
      then throw (Js.mkError "Chain ID not found in client")
      else
        let srcChainId := or_default chainId Js.zero in
        let srcBlockNumber := blockNumber receipt in
        let txIndex := transactionIndex receipt in
        let maxAttempts :=
          or_default (Options.maxAttempts options) (Config.maxAttempts polymerConfig) in
        let interval :=
          or_default (Options.interval options) (Config.interval polymerConfig) in
        let returnJob := or_default (Options.returnJob options) false in
        localLogIndex <-
          lift (resolveLogIndex receipt (Options.eventSignature options)
                  (Options.logIndex options)) ;;
        Logger.log logger "Transaction receipt details:"
          [ JNumber srcChainId; json_of_block srcBlockNumber; JNumber txIndex;
            JNumber (assert_defined localLogIndex);
            JString (transactionHash receipt) ] ;;
        jobId <- requestProof polymerConfig srcChainId srcBlockNumber txIndex
                   (assert_defined localLogIndex) ;;
        Logger.log logger "Proof job created with ID:" [JString jobId] ;;
        if returnJob
        then ret (ResultJob jobId receipt)
        else
          result <- wait polymerConfig jobId maxAttempts interval ;;
          ret (ResultStatus result)
  end.

(** [polymer.requestProof] (index.ts 164-173). *)
Definition polymer_requestProof (polymerConfig : Config.t) (p : Params.t) : M string :=
  requestProof polymerConfig (Params.srcChainId p) (Params.srcBlockNumber p)
    (Params.txIndex p) (Params.logIndex p).

(** [polymer.queryProofStatus] (index.ts 178-184). *)
Definition polymer_queryProofStatus (polymerConfig : Config.t) (jobId : string)
    : M ProofJobStatus :=
  if negb (Js.truthy_string jobId)
  then throw (Js.mkError "Job ID is required")
  else queryProofStatus polymerConfig jobId.

(** [polymer.wait] (index.ts 189-200). *)
Definition polymer_wait (polymerConfig : Config.t) (jobId : string)
    (maxAttempts interval : option Z) : M ProofJobStatus :=
  if negb (Js.truthy_string jobId)
  then throw (Js.mkError "Job ID is required")
  else
    wait polymerConfig jobId
      (Js.or_int maxAttempts (Config.maxAttempts polymerConfig))
      (Js.or_int interval (Config.interval polymerConfig)).

(** The object the plugin adds to the client. *)
Record Extension : Type := mkExtension {
  ext_polymerProof : Options.t -> M ProofResult;
  ext_requestProof : Params.t -> M string;
  ext_queryProofStatus : string -> M ProofJobStatus;
  ext_wait : string -> option Z -> option Z -> M ProofJobStatus
}.

(** [polymer(config)(client)] (index.ts 64-204). *)
Definition polymer (config : PolymerConfig.t) (client : PublicClient) : M Extension :=
  let polymerConfig := mergeConfig DEFAULT_CONFIG config in
  let logger := createLogger (Config.debug polymerConfig) in
  if negb (Js.truthy_string (Config.apiKey polymerConfig))
  then throw (Js.mkError "Polymer API key is required")
  else
    Logger.log logger "Initializing Polymer Viem plugin with config:"
      (json_of_config polymerConfig) ;;
    ret {| ext_polymerProof := polymerProof client polymerConfig;
           ext_requestProof := polymer_requestProof polymerConfig;
           ext_queryProofStatus := polymer_queryProofStatus polymerConfig;
           ext_wait := polymer_wait polymerConfig |}.

End Plugin.

(* ===================================================================== *)
(** ** The poll loop for an arbitrary number of attempts *)
(* ===================================================================== *)

(** [wait] above takes [maxAttempts] as an integer.  The source takes a
    [number]: the counter [attempt] is a binary64 value that starts at 1
    and is incremented by a floating-point addition, and the two tests
    [attempt <= maxAttempts] and [attempt < maxAttempts] are comparisons
    of binary64 values, so the bound may be a fraction, [NaN] or an
    infinity.  The definitions below follow the source on such bounds.
    The loop need not end (the counter stops growing at 2^53), so it is
    run with fuel and answers [None] when the fuel runs out.  Numbers are
    canonical binary64 values; [interval] is an integer number of
    milliseconds. *)

Module JsNum.

Definition one : Js.number := Js.Number 1.

(** [x <= y]. *)
Definition le (x y : Js.number) : bool := SFleb x y.

(** [x + y], rounded to nearest, ties to even. *)
Definition add (x y : Js.number) : Js.number := SFadd Js.prec Js.emax x y.

End JsNum.

Section AnyNumber.

Variable remote : Remote.

(** [Number.prototype.toString] of the runtime, which the template
    literals apply to [attempt] and [maxAttempts]. *)
Variable number_to_string : Js.number -> string.

(** One iteration of the loop of [wait] (index.ts 332-350). *)
Definition wait_attempt_number (config : Config.t) (jobId : string)
    (maxAttempts : Js.number) (interval : Z) (attempt : Js.number)
    : M (option ProofJobStatus) :=
  let logger := createLogger (Config.debug config) in
  Logger.log logger
    ("Polling attempt " ++ number_to_string attempt ++ "/"
     ++ number_to_string maxAttempts) [] ;;
  result <- queryProofStatus remote config jobId ;;
  match status result with
  | complete =>
      Logger.log logger "Proof generation complete!" [] ;;
      ret (Some result)
  | error =>
      throw (Js.mkError ("Proof generation failed: "
                         ++ Js.or_string (failureReason result) "Unknown error"))
  | _ =>
      (if Js.lt attempt maxAttempts
       then
         Logger.log logger
           ("Waiting " ++ Js.string_of_int interval ++ "ms before next attempt...") [] ;;
         emit (SetTimeout interval)
       else ret tt) ;;
      ret None
  end.

(** [for (let attempt = ...; attempt <= maxAttempts; attempt++) { ... }]
    followed by the final [throw] (index.ts 331-353), from the current
    value of [attempt] on. *)
Fixpoint poll_number (fuel : nat) (config : Config.t) (jobId : string)
    (maxAttempts : Js.number) (interval : Z) (attempt : Js.number) (w : World)
    : option (Outcome ProofJobStatus * World) :=
  match fuel with
  | O => None
  | S fuel' =>
      if JsNum.le attempt maxAttempts
      then
        match wait_attempt_number config jobId maxAttempts interval attempt w with
        | (Returned (Some result), w') => Some (Returned result, w')
        | (Returned None, w') =>
            poll_number fuel' config jobId maxAttempts interval
              (JsNum.add attempt JsNum.one) w'
        | (Thrown e, w') => Some (Thrown e, w')
        end
      else
        Some (Thrown (Js.mkError ("Proof generation timed out after "
                                  ++ number_to_string maxAttempts ++ " attempts")),
              w)
  end.

(** [wait] (index.ts 320-354) for any number [maxAttempts]. *)
Definition wait_number (fuel : nat) (config : Config.t) (jobId : string)
    (maxAttempts : Js.number) (interval : Z) (w : World)
    : option (Outcome ProofJobStatus * World) :=
  let logger := createLogger (Config.debug config) in
  let started :=
    Logger.log logger
      ("Polling for proof completion (max " ++ number_to_string maxAttempts
       ++ " attempts, interval " ++ Js.string_of_int interval ++ "ms)") [] w in
  poll_number fuel config jobId maxAttempts interval JsNum.one (snd started).

End AnyNumber.

(** The digits of [num / den] after the decimal point, for a fraction
    whose expansion ends within [fuel] digits. *)
Fixpoint fraction_digits (fuel : nat) (num den : Z) : string :=
  match fuel with
  | O => EmptyString
  | S fuel' =>
      if num =? 0 then EmptyString
      else
        String (ascii_of_nat (48 + Z.to_nat (10 * num / den)))
          (fraction_digits fuel' ((10 * num) mod den) den)
  end.

(** A stand-in for [Number.prototype.toString] in the examples: the exact
    decimal expansion, which is what the runtime prints for an integer
    below 10^21 in magnitude and for a fraction with a short expansion
    such as 2.5. *)
Definition decimal_of_number (x : Js.number) : string :=
  match x with
  | S754_nan => "NaN"
  | S754_infinity false => "Infinity"
  | S754_infinity true => "-Infinity"
  | S754_zero _ => "0"
  | S754_finite s m e =>
      match Js.to_integer x with
      | Some z => Js.string_of_int z
      | None =>
          let den := 2 ^ (- e) in
          (if s then "-" else EmptyString)
          ++ Js.string_of_int (Zpos m / den) ++ "."
          ++ fraction_digits (Z.to_nat (- e)) (Zpos m mod den) den
      end
  end.

(** The number 2.5. *)
Definition two_and_a_half : Js.number :=
  S754_finite false 5629499534213120 (-51).

(* ===================================================================== *)
(** ** The errors of the plugin, under the names of the specification *)
(* ===================================================================== *)

Module Errors.

Definition EmptyHandle : Js.Error := Js.mkError "Job ID is required".

Definition SelectorRequired : Js.Error :=
  Js.mkError "eventSignature or logIndex is required".

Definition NegativeLogIndex : Js.Error :=
  Js.mkError "logIndex must be non-negative".

(** [InvalidArgument] covers the two complaints about the selector. *)
Definition InvalidArgument (e : Js.Error) : Prop :=
  e = SelectorRequired \/ e = NegativeLogIndex.

Definition EventNotFound (signature : string) : Js.Error :=
  Js.mkError ("Event " ++ signature ++ " not found in transaction receipt").

Definition MissingChainContext : Js.Error :=
  Js.mkError "Chain ID not found in client".

Definition ProofGenerationFailed (reason : string) : Js.Error :=
  Js.mkError ("Proof generation failed: " ++ reason).

Definition ProofGenerationTimedOut (maxAttempts : Z) : Js.Error :=
  Js.mkError ("Proof generation timed out after "
              ++ Js.string_of_int maxAttempts ++ " attempts").

End Errors.

(* ===================================================================== *)
(** ** Vocabulary of the statements *)
(* ===================================================================== *)

(** The status query the plugin posts for [jobId]. *)
Definition queryRequest (config : Config.t) (jobId : string) : RpcRequest :=
  rpc config "log_queryProof" [JString jobId].

(** The proof request the plugin posts for four coordinates. *)
Definition proofRequest (config : Config.t)
    (srcChainId srcBlockNumber txIndex logIndex : Js.number) : RpcRequest :=
  rpc config "log_requestProof"
    [JNumber srcChainId; JNumber srcBlockNumber; JNumber txIndex; JNumber logIndex].

(** From world [w] on, the service answers the successive status queries
    for [jobId] with [statuses], in order. *)
Definition answers (remote : Remote) (w : World) (config : Config.t)
    (jobId : string) (statuses : list ProofJobStatus) : Prop :=
  forall i st,
    nth_error statuses i = Some st ->
    queryProofReply remote (round_trips w + i)%nat (queryRequest config jobId)
    = RpcSuccess st.

Definition non_terminal (st : ProofJobStatus) : Prop :=
  terminal (status st) = false.

(** [n] polls that each end in a delay: query, timer, query, timer, ... *)
Fixpoint poll_trace (q : RpcRequest) (interval : Z) (n : nat) : list Event :=
  match n with
  | O => []
  | S n' => Fetch q :: SetTimeout interval :: poll_trace q interval n'
  end.

(** A run of [m] from [w] ends with [o] and adds the effects [t]. *)
Definition yields {A : Type} (m : M A) (w : World) (o : Outcome A)
    (t : list Event) : Prop :=
  fst (m w) = o /\ effects (snd (m w)) = (effects w ++ t)%list.

(** What can be observed of a run when the console is not watched. *)
Definition observe {A : Type} (r : Outcome A * World) : Outcome A * list Event :=
  (fst r, effects (snd r)).

(** Two computations that cannot be told apart without the console. *)
Definition console_equiv {A : Type} (m1 m2 : M A) : Prop :=
  forall w1 w2, effects w1 = effects w2 -> observe (m1 w1) = observe (m2 w2).

Definition with_debug (b : bool) (c : Config.t) : Config.t :=
  {| Config.apiUrl := Config.apiUrl c;
     Config.apiKey := Config.apiKey c;
     Config.maxAttempts := Config.maxAttempts c;
     Config.interval := Config.interval c;
     Config.timeout := Config.timeout c;
     Config.debug := b |}.

(** A service that answers the k-th round trip of a run with the k-th
    status of a script, and every proof request with one job id. *)
Definition scripted (jobId : string) (statuses : list ProofJobStatus) : Remote :=
  {| requestProofReply := fun _ _ => RpcSuccess jobId;
     queryProofReply := fun k _ =>
       match nth_error statuses k with
       | Some st => RpcSuccess st
       | None => NetworkFailure (Js.mkError "fetch failed")
       end |}.

Definition status_of (s : JobState) : ProofJobStatus :=
  {| status := s; proof := None; failureReason := None; extra := [] |}.

Definition failed_with (reason : string) : ProofJobStatus :=
  {| status := error; proof := None; failureReason := Some reason; extra := [] |}.

Definition proved (p : string) : ProofJobStatus :=
  {| status := complete; proof := Some p; failureReason := None; extra := [] |}.

Definition testConfig : Config.t :=
  mergeConfig DEFAULT_CONFIG
    {| PolymerConfig.apiUrl := None;
       PolymerConfig.apiKey := "key";
       PolymerConfig.maxAttempts := None;
       PolymerConfig.interval := None;
       PolymerConfig.timeout := None;
       PolymerConfig.debug := None |}.

(** A computation leaves the events of the past in place. *)
Definition extends {A : Type} (m : M A) : Prop :=
  forall w, exists t, snd (m w) = (w ++ t)%list.

(** What [requestProof] returns or throws, by the reply of the service. *)
Definition submitted_outcome (r : Reply string) : Outcome string :=
  match r with
  | NetworkFailure e => Thrown e
  | HttpFailure code =>
      Thrown (Js.mkError ("HTTP error! status: " ++ Js.string_of_int code))
  | RpcFailure errorJson =>
      Thrown (Js.mkError ("Polymer API error: " ++ errorJson))
  | RpcSuccess jobId => Returned jobId
  end.

(** Position [k] holds the first element of [l] that satisfies [p]. *)
Definition first_match {A : Type} (p : A -> bool) (l : list A) (k : nat) : Prop :=
  (exists x, nth_error l k = Some x /\ p x = true) /\
  (forall j y, (j < k)%nat -> nth_error l j = Some y -> p y = false).

Definition no_match {A : Type} (p : A -> bool) (l : list A) : Prop :=
  forall x, In x l -> p x = false.

(** A stand-in for the hash in the examples: the bytes themselves. *)
Definition demo_hash (bytes : list Byte.byte) : string :=
  string_of_list_byte bytes.

Definition demo_client : PublicClient :=
  {| chain_id := Some (Js.Number 11155420) |}.

Definition transfer_log : Log :=
  {| topics := ["Transfer(address,address,uint256)"; "0xfrom"; "0xto"] |}.

Definition approval_log : Log :=
  {| topics := ["Approval(address,address,uint256)"; "0xowner"; "0xspender"] |}.

Definition anonymous_log : Log := {| topics := [] |}.

(** A receipt whose logs 2 and 3 are both transfers. *)
Definition demo_receipt : TransactionReceipt :=
  {| blockNumber := BlockNumber_bigint 12345;
     transactionIndex := Js.Number 7;
     transactionHash := "0xhash";
     logs := [approval_log; anonymous_log; transfer_log; transfer_log] |}.

(** The number 1.5. *)
Definition one_and_a_half : Js.number :=
  S754_finite false 6755399441055744 (-52).

(* ===================================================================== *)
(** ** Further vocabulary: single round trips, trace invariants *)
(* ===================================================================== *)

(** What a round trip makes of a reply: the three failures throw, a
    success gives [data.result]. *)
Definition reply_outcome {A : Type} (r : Reply A) : Outcome A :=
  match r with
  | NetworkFailure e => Thrown e
  | HttpFailure code =>
      Thrown (Js.mkError ("HTTP error! status: " ++ Js.string_of_int code))
  | RpcFailure errorJson =>
      Thrown (Js.mkError ("Polymer API error: " ++ errorJson))
  | RpcSuccess result => Returned result
  end.

(** What one attempt of [wait] observes, by the reply to its query. *)
Definition attempt_outcome (config : Config.t) (jobId : string)
    (maxAttempts interval attempt : Z) (r : Reply ProofJobStatus)
    : Outcome (option ProofJobStatus) * list Event :=
  let q := queryRequest config jobId in
  match r with
  | RpcSuccess st =>
      match status st with
      | complete => (Returned (Some st), [Fetch q])
      | error =>
          (Thrown (Errors.ProofGenerationFailed
                     (Js.or_string (failureReason st) "Unknown error")),
           [Fetch q])
      | _ =>
          (Returned None,
           Fetch q :: if attempt <? maxAttempts then [SetTimeout interval] else nil)
      end
  | NetworkFailure e => (Thrown e, [Fetch q])
  | HttpFailure code =>
      (Thrown (Js.mkError ("HTTP error! status: " ++ Js.string_of_int code)),
       [Fetch q])
  | RpcFailure errorJson =>
      (Thrown (Js.mkError ("Polymer API error: " ++ errorJson)), [Fetch q])
  end.

(** Every event a computation adds satisfies [Q]. *)
Definition adds_only {A : Type} (Q : Event -> Prop) (m : M A) : Prop :=
  forall w, exists t, snd (m w) = (w ++ t)%list /\ Forall Q t.

(** A round trip goes to the configured endpoint, with the configured
    key as bearer credential, for one of the two methods. *)
Definition addressed_to (config : Config.t) (e : Event) : Prop :=
  match e with
  | Fetch r =>
      url r = Config.apiUrl config /\
      authorization r = "Bearer " ++ Config.apiKey config /\
      (rpcMethod r = "log_requestProof" \/ rpcMethod r = "log_queryProof")
  | _ => True
  end.

Definition not_console (e : Event) : Prop := is_console e = false.

Definition with_timeout (t : Z) (c : Config.t) : Config.t :=
  {| Config.apiUrl := Config.apiUrl c;
     Config.apiKey := Config.apiKey c;
     Config.maxAttempts := Config.maxAttempts c;
     Config.interval := Config.interval c;
     Config.timeout := t;
     Config.debug := Config.debug c |}.

(** Two replies that a poll cannot tell apart: the same reply, or two
    statuses that are both non-terminal. *)
Definition same_progress (r1 r2 : Reply ProofJobStatus) : Prop :=
  r1 = r2 \/
  exists s1 s2,
    r1 = RpcSuccess s1 /\ r2 = RpcSuccess s2 /\
    non_terminal s1 /\ non_terminal s2.

(** [log.topics[0]] of every log of a receipt. *)
Definition leading_topics (receipt : TransactionReceipt) : list (option string) :=
  map (fun log => hd_error (topics log)) (logs receipt).

(** A service on which no job ever ends. *)
Definition always_pending : Remote :=
  {| requestProofReply := fun _ _ => RpcSuccess "job-1";
     queryProofReply := fun _ _ => RpcSuccess (status_of pending) |}.


(** A service that answers every round trip with HTTP status [code]. *)
Definition refusing (code : Z) : Remote :=
  {| requestProofReply := fun _ _ => HttpFailure code;
     queryProofReply := fun _ _ => HttpFailure code |}.

(* ===================================================================== *)
(** ** Traces and effects *)
(* ===================================================================== *)

Local Open Scope list_scope.

Lemma effects_app (w t : World) :
  effects (w ++ t) = (effects w ++ effects t)%list.
Proof. unfold effects. apply filter_app. Qed.

Lemma fetches_effects (w : World) :
  filter is_fetch (effects w) = filter is_fetch w.
Proof.
  induction w as [|e w IH]; [reflexivity|].
  destruct e; cbn; fold (effects w); rewrite ?IH; reflexivity.
Qed.

Lemma timers_effects (w : World) :
  filter is_timer (effects w) = filter is_timer w.
Proof.
  induction w as [|e w IH]; [reflexivity|].
  destruct e; cbn; fold (effects w); rewrite ?IH; reflexivity.
Qed.

Lemma round_trips_effects (w1 w2 : World) :
  effects w1 = effects w2 -> round_trips w1 = round_trips w2.
Proof.
  intros H. unfold round_trips.
  rewrite <- (fetches_effects w1), <- (fetches_effects w2), H. reflexivity.
Qed.

Lemma round_trips_extend (w w' : World) (t : list Event) :
  effects w' = (effects w ++ t)%list ->
  round_trips w' = (round_trips w + List.length (filter is_fetch t))%nat.
Proof.
  intros H. unfold round_trips.
  rewrite <- (fetches_effects w'), H, filter_app, length_app, fetches_effects.
  reflexivity.
Qed.

Lemma delays_extend (w w' : World) (t : list Event) :
  effects w' = (effects w ++ t)%list ->
  delays w' = (delays w + List.length (filter is_timer t))%nat.
Proof.
  intros H. unfold delays.
  rewrite <- (timers_effects w'), H, filter_app, length_app, timers_effects.
  reflexivity.
Qed.

Lemma poll_trace_fetches q interval n :
  List.length (filter is_fetch (poll_trace q interval n)) = n.
Proof. induction n as [|n IH]; cbn; [reflexivity | now rewrite IH]. Qed.

Lemma poll_trace_timers q interval n :
  List.length (filter is_timer (poll_trace q interval n)) = n.
Proof. induction n as [|n IH]; cbn; [reflexivity | now rewrite IH]. Qed.

Lemma poll_trace_snoc q interval n :
  (poll_trace q interval n ++ [Fetch q; SetTimeout interval])%list
  = poll_trace q interval (S n).
Proof.
  induction n as [|n IH]; [reflexivity|].
  cbn [poll_trace app] in *. now rewrite IH.
Qed.

(** *** Rules for [yields] *)

Lemma yields_ret {A : Type} (a : A) w : yields (ret a) w (Returned a) [].
Proof. split; cbn; [reflexivity | now rewrite app_nil_r]. Qed.

Lemma yields_throw {A : Type} e w : yields (@throw A e) w (Thrown e) [].
Proof. split; cbn; [reflexivity | now rewrite app_nil_r]. Qed.

Lemma yields_bind {A B : Type} (m : M A) (k : A -> M B) w a t1 o t2 :
  yields m w (Returned a) t1 ->
  yields (k a) (snd (m w)) o t2 ->
  yields (bind m k) w o (t1 ++ t2).
Proof.
  unfold yields, bind. destruct (m w) as [r w1]; cbn.
  intros [-> E1] [E2 E3]. split; [exact E2|].
  rewrite E3, E1, app_assoc. reflexivity.
Qed.

Lemma yields_bind_thrown {A B : Type} (m : M A) (k : A -> M B) w e t :
  yields m w (Thrown e) t -> yields (bind m k) w (Thrown e) t.
Proof.
  unfold yields, bind. destruct (m w) as [r w1]; cbn.
  intros [-> E1]. split; [reflexivity | exact E1].
Qed.

Lemma yields_try_returned {A : Type} (m : M A) h w a t :
  yields m w (Returned a) t -> yields (try_catch m h) w (Returned a) t.
Proof.
  unfold yields, try_catch. destruct (m w) as [r w1]; cbn.
  intros [-> E1]. split; [reflexivity | exact E1].
Qed.

Lemma yields_try_thrown {A : Type} (m : M A) h w e t1 o t2 :
  yields m w (Thrown e) t1 ->
  yields (h e) (snd (m w)) o t2 ->
  yields (try_catch m h) w o (t1 ++ t2).
Proof.
  unfold yields, try_catch. destruct (m w) as [r w1]; cbn.
  intros [-> E1] [E2 E3]. split; [exact E2|].
  rewrite E3, E1, app_assoc. reflexivity.
Qed.

Lemma yields_log enabled label args w :
  yields (Logger.log (createLogger enabled) label args) w (Returned tt) [].
Proof.
  destruct enabled; cbn; split; cbn; try reflexivity;
    rewrite ?effects_app; cbn; now rewrite ?app_nil_r.
Qed.

Lemma yields_error enabled label args w :
  yields (Logger.error (createLogger enabled) label args) w (Returned tt) [].
Proof.
  destruct enabled; cbn; split; cbn; try reflexivity;
    rewrite ?effects_app; cbn; now rewrite ?app_nil_r.
Qed.

Lemma yields_timer ms w :
  yields (emit (SetTimeout ms)) w (Returned tt) [SetTimeout ms].
Proof. split; cbn; [reflexivity | now rewrite effects_app]. Qed.

Lemma yields_fetch {A : Type} remote
    (reply : Remote -> nat -> RpcRequest -> Reply A) req w :
  yields (fetch remote reply req) w
    (Returned (reply remote (round_trips w) req)) [Fetch req].
Proof. split; cbn; [reflexivity | now rewrite effects_app]. Qed.

Lemma yields_round_trips {A : Type} (m : M A) w o t :
  yields m w o t ->
  round_trips (snd (m w)) = (round_trips w + List.length (filter is_fetch t))%nat.
Proof. intros [_ H]. now apply round_trips_extend. Qed.

(* ===================================================================== *)
(** ** The poll loop *)
(* ===================================================================== *)

Section PollLoop.

Variable remote : Remote.
Variable config : Config.t.
Variable jobId : string.
Variables maxAttempts interval : Z.

Let q : RpcRequest := queryRequest config jobId.

Lemma queryProofStatus_success w st :
  queryProofReply remote (round_trips w) q = RpcSuccess st ->
  yields (queryProofStatus remote config jobId) w (Returned st) [Fetch q].
Proof.
  intros H. unfold queryProofStatus.
  change [Fetch q] with ([] ++ [Fetch q]).
  eapply yields_bind; [apply yields_log|].
  apply yields_try_returned.
  change [Fetch q] with ([Fetch q] ++ []).
  eapply yields_bind; [apply yields_fetch|].
  rewrite (yields_round_trips _ _ _ _ (yields_log _ _ _ w)).
  cbn [filter List.length]. rewrite Nat.add_0_r.
  fold (queryRequest config jobId). fold q. rewrite H.
  apply yields_ret.
Qed.

(** An attempt that sees a non-terminal status falls through, after a
    delay exactly when it is not the last attempt. *)
Lemma wait_attempt_non_terminal w st attempt :
  queryProofReply remote (round_trips w) q = RpcSuccess st ->
  non_terminal st ->
  yields (wait_attempt remote config jobId maxAttempts interval attempt) w
    (Returned None)
    (Fetch q :: if attempt <? maxAttempts then [SetTimeout interval] else []).
Proof.
  intros H NT. unfold wait_attempt.
  match goal with |- yields _ _ _ (?e :: ?t) =>
    replace (e :: t) with ([] ++ ([e] ++ (t ++ [])))
      by (cbn [app]; now rewrite app_nil_r) end.
  eapply yields_bind; [apply yields_log|].
  eapply yields_bind.
  - apply queryProofStatus_success.
    rewrite (yields_round_trips _ _ _ _ (yields_log _ _ _ w)).
    cbn [filter List.length]. rewrite Nat.add_0_r. exact H.
  - assert (E : status st = pending \/ status st = generating).
    { unfold non_terminal in NT. destruct (status st); cbn in NT;
        try discriminate; auto. }
    assert (G : forall w0,
      yields (if attempt <? maxAttempts
              then bind (Logger.log (createLogger (Config.debug config))
                           ("Waiting " ++ Js.string_of_int interval
                            ++ "ms before next attempt...")%string [])
                        (fun _ => emit (SetTimeout interval))
              else ret tt) w0 (Returned tt)
             (if attempt <? maxAttempts then [SetTimeout interval] else [])).
    { intros w0. destruct (attempt <? maxAttempts).
      - change [SetTimeout interval] with ([] ++ [SetTimeout interval]).
        eapply yields_bind; [apply yields_log | apply yields_timer].
      - apply yields_ret. }
    destruct E as [E|E]; rewrite E;
      (eapply yields_bind; [apply G | apply yields_ret]).
Qed.

(** An attempt that sees [complete] returns that status at once. *)
Lemma wait_attempt_complete w st attempt :
  queryProofReply remote (round_trips w) q = RpcSuccess st ->
  status st = complete ->
  yields (wait_attempt remote config jobId maxAttempts interval attempt) w
    (Returned (Some st)) [Fetch q].
Proof.
  intros H C. unfold wait_attempt.
  change [Fetch q] with ([] ++ ([Fetch q] ++ ([] ++ []))).
  eapply yields_bind; [apply yields_log|].
  eapply yields_bind.
  - apply queryProofStatus_success.
    rewrite (yields_round_trips _ _ _ _ (yields_log _ _ _ w)).
    cbn [filter List.length]. rewrite Nat.add_0_r. exact H.
  - rewrite C. eapply yields_bind; [apply yields_log | apply yields_ret].
Qed.

(** An attempt that sees [error] throws with the reported reason. *)
Lemma wait_attempt_error w st attempt :
  queryProofReply remote (round_trips w) q = RpcSuccess st ->
  status st = error ->
  yields (wait_attempt remote config jobId maxAttempts interval attempt) w
    (Thrown (Errors.ProofGenerationFailed
               (Js.or_string (failureReason st) "Unknown error")))
    [Fetch q].
Proof.
  intros H C. unfold wait_attempt.
  change [Fetch q] with ([] ++ ([Fetch q] ++ [])).
  eapply yields_bind; [apply yields_log|].
  eapply yields_bind.
  - apply queryProofStatus_success.
    rewrite (yields_round_trips _ _ _ _ (yields_log _ _ _ w)).
    cbn [filter List.length]. rewrite Nat.add_0_r. exact H.
  - rewrite C. apply yields_throw.
Qed.

(** [n] attempts in a row that see non-terminal statuses, none of them
    the last one: the loop goes on from attempt [attempt + n], [n]
    queries and [n] delays later. *)
Lemma for_attempts_skip (after : M ProofJobStatus)
    (statuses : list ProofJobStatus) :
  forall (rest : nat) (attempt : Z) (w : World) (o : Outcome ProofJobStatus) t,
    Forall non_terminal statuses ->
    attempt + Z.of_nat (List.length statuses) <= maxAttempts ->
    (forall i st, nth_error statuses i = Some st ->
       queryProofReply remote (round_trips w + i)%nat q = RpcSuccess st) ->
    (forall w',
       effects w' = effects w ++ poll_trace q interval (List.length statuses) ->
       yields (for_attempts (wait_attempt remote config jobId maxAttempts interval)
                 after rest (attempt + Z.of_nat (List.length statuses))) w' o t) ->
    yields (for_attempts (wait_attempt remote config jobId maxAttempts interval)
              after (List.length statuses + rest) attempt) w o
      (poll_trace q interval (List.length statuses) ++ t).
Proof.
  induction statuses as [|st statuses IH]; intros rest attempt w o t NT Hle Hans K.
  - cbn [List.length poll_trace app Nat.add] in *.
    rewrite Z.add_0_r in K. apply K. now rewrite app_nil_r.
  - cbn [List.length poll_trace Nat.add for_attempts].
    inversion NT as [|? ? NT1 NT2]; subst.
    cbn [List.length] in Hle, K. rewrite Nat2Z.inj_succ in Hle, K.
    assert (H0 : queryProofReply remote (round_trips w) q = RpcSuccess st).
    { rewrite <- (Nat.add_0_r (round_trips w)). now apply Hans. }
    pose proof (wait_attempt_non_terminal w st attempt H0 NT1) as Y.
    assert (Hlt : (attempt <? maxAttempts) = true) by (apply Z.ltb_lt; lia).
    rewrite Hlt in Y.
    change (yields
              (bind (wait_attempt remote config jobId maxAttempts interval attempt)
                 (fun r => match r with
                           | Some a => ret a
                           | None =>
                               for_attempts
                                 (wait_attempt remote config jobId maxAttempts interval)
                                 after (List.length statuses + rest) (attempt + 1)
                           end))
              w o
              ([Fetch q; SetTimeout interval]
               ++ (poll_trace q interval (List.length statuses) ++ t))).
    eapply yields_bind; [exact Y|].
    cbn beta iota.
    apply IH.
    + assumption.
    + lia.
    + intros i st' Hi.
      rewrite (yields_round_trips _ _ _ _ Y). cbn [filter is_fetch List.length].
      replace (round_trips w + 1 + i)%nat with (round_trips w + S i)%nat by lia.
      now apply Hans.
    + intros w' Hw'.
      replace (attempt + 1 + Z.of_nat (List.length statuses))
        with (attempt + Z.succ (Z.of_nat (List.length statuses))) by lia.
      apply K. rewrite Hw'. destruct Y as [_ Y2]. rewrite Y2.
      rewrite <- app_assoc. reflexivity.
Qed.

End PollLoop.

Section Wait.

Variable remote : Remote.
Variable config : Config.t.
Variable jobId : string.
Variables maxAttempts interval : Z.

Let q : RpcRequest := queryRequest config jobId.

Let timed_out : M ProofJobStatus :=
  throw (Errors.ProofGenerationTimedOut maxAttempts).

(** [wait] on a sequence that starts with the non-terminal statuses
    [before], when more attempts than that are allowed: the loop reaches
    attempt [length before + 1] after as many queries and delays. *)
Lemma wait_prefix (before : list ProofJobStatus) w o t :
  Forall non_terminal before ->
  Z.of_nat (List.length before) < maxAttempts ->
  answers remote w config jobId before ->
  (forall w',
     effects w' = effects w ++ poll_trace q interval (List.length before) ->
     yields (for_attempts (wait_attempt remote config jobId maxAttempts interval)
               timed_out (Z.to_nat maxAttempts - List.length before)
               (1 + Z.of_nat (List.length before))) w' o t) ->
  yields (wait remote config jobId maxAttempts interval) w o
    (poll_trace q interval (List.length before) ++ t).
Proof.
  intros NT Hlt Hans K. unfold wait.
  match goal with |- yields _ _ _ ?t0 => change t0 with ([] ++ t0) end.
  eapply yields_bind; [apply yields_log|].
  replace (Z.to_nat maxAttempts)
    with (List.length before + (Z.to_nat maxAttempts - List.length before))%nat
    by lia.
  pose proof (yields_log (Config.debug config)
    ("Polling for proof completion (max " ++ Js.string_of_int maxAttempts
     ++ " attempts, interval " ++ Js.string_of_int interval ++ "ms)")%string
    [] w) as L.
  apply for_attempts_skip.
  - exact NT.
  - lia.
  - intros i st Hi. rewrite (yields_round_trips _ _ _ _ L).
    cbn [filter List.length]. rewrite Nat.add_0_r. now apply Hans.
  - intros w' Hw'. apply K. rewrite Hw'. destruct L as [_ L2].
    rewrite L2, app_nil_r. reflexivity.
Qed.

Lemma answers_app_l (w : World) (l1 l2 : list ProofJobStatus) :
  answers remote w config jobId (l1 ++ l2) -> answers remote w config jobId l1.
Proof.
  intros H i st Hi. apply H. rewrite nth_error_app1; [exact Hi|].
  apply nth_error_Some. congruence.
Qed.

Lemma answers_last (w w' : World) (before : list ProofJobStatus) last :
  answers remote w config jobId (before ++ [last]) ->
  effects w' = effects w ++ poll_trace q interval (List.length before) ->
  queryProofReply remote (round_trips w') q = RpcSuccess last.
Proof.
  intros H Hw'. rewrite (round_trips_extend _ _ _ Hw'), poll_trace_fetches.
  apply H. rewrite nth_error_app2 by lia. now rewrite Nat.sub_diag.
Qed.

(** What a trace of polls says about the counters. *)
Lemma yields_poll_counts {A : Type} (m : M A) w o n :
  yields m w o (poll_trace q interval n ++ [Fetch q]) ->
  round_trips (snd (m w)) = (round_trips w + n + 1)%nat /\
  delays (snd (m w)) = (delays w + n)%nat.
Proof.
  intros [_ H]. split.
  - rewrite (round_trips_extend _ _ _ H), filter_app, length_app,
      poll_trace_fetches. cbn. lia.
  - rewrite (delays_extend _ _ _ H), filter_app, length_app,
      poll_trace_timers. cbn. lia.
Qed.

Lemma wait_complete_yields (before : list ProofJobStatus) last w :
  Forall non_terminal before ->
  status last = complete ->
  Z.of_nat (List.length before) + 1 <= maxAttempts ->
  answers remote w config jobId (before ++ [last]) ->
  yields (wait remote config jobId maxAttempts interval) w (Returned last)
    (poll_trace q interval (List.length before) ++ [Fetch q]).
Proof.
  intros NT C Hle Hans.
  apply wait_prefix; [exact NT | lia | now apply answers_app_l in Hans |].
  intros w' Hw'.
  destruct (Z.to_nat maxAttempts - List.length before)%nat as [|r] eqn:E; [lia|].
  cbn [for_attempts]. change [Fetch q] with ([Fetch q] ++ []).
  eapply yields_bind.
  - apply wait_attempt_complete; [|exact C]. eapply answers_last; eassumption.
  - apply yields_ret.
Qed.

Lemma wait_error_yields (before : list ProofJobStatus) last w :
  Forall non_terminal before ->
  status last = error ->
  Z.of_nat (List.length before) + 1 <= maxAttempts ->
  answers remote w config jobId (before ++ [last]) ->
  yields (wait remote config jobId maxAttempts interval) w
    (Thrown (Errors.ProofGenerationFailed
               (Js.or_string (failureReason last) "Unknown error")))
    (poll_trace q interval (List.length before) ++ [Fetch q]).
Proof.
  intros NT C Hle Hans.
  apply wait_prefix; [exact NT | lia | now apply answers_app_l in Hans |].
  intros w' Hw'.
  destruct (Z.to_nat maxAttempts - List.length before)%nat as [|r] eqn:E; [lia|].
  cbn [for_attempts].
  apply yields_bind_thrown.
  apply wait_attempt_error; [|exact C]. eapply answers_last; eassumption.
Qed.

Lemma wait_timeout_yields (statuses : list ProofJobStatus) w :
  1 <= maxAttempts ->
  Forall non_terminal statuses ->
  maxAttempts <= Z.of_nat (List.length statuses) ->
  answers remote w config jobId statuses ->
  yields (wait remote config jobId maxAttempts interval) w
    (Thrown (Errors.ProofGenerationTimedOut maxAttempts))
    (poll_trace q interval (Z.to_nat maxAttempts - 1) ++ [Fetch q]).
Proof.
  intros H1 NT Hlen Hans.
  set (n := (Z.to_nat maxAttempts - 1)%nat).
  assert (Hn : List.length (firstn n statuses) = n)
    by (rewrite length_firstn; lia).
  destruct (nth_error statuses n) as [st|] eqn:Hst;
    [| apply nth_error_None in Hst; lia].
  assert (Hsplit : firstn (S n) statuses = firstn n statuses ++ [st]).
  { clear - Hst. revert statuses Hst.
    induction n as [|k IH]; intros [|x l] Hst; cbn in *; try discriminate.
    - now inversion Hst.
    - f_equal. now apply IH. }
  assert (Hans' : answers remote w config jobId (firstn n statuses ++ [st])).
  { rewrite <- Hsplit. intros i s Hi. apply Hans.
    rewrite <- (firstn_skipn (S n) statuses).
    rewrite nth_error_app1; [exact Hi|].
    apply nth_error_Some. congruence. }
  assert (NTst : non_terminal st).
  { rewrite Forall_forall in NT. apply NT. eapply nth_error_In; eassumption. }
  rewrite <- Hn at 1.
  apply wait_prefix.
  - rewrite Forall_forall in *. intros s Hs. apply NT.
    rewrite <- (firstn_skipn n statuses). apply in_or_app. now left.
  - lia.
  - now apply answers_app_l in Hans'.
  - intros w' Hw'. rewrite Hn.
    replace (Z.to_nat maxAttempts - n)%nat with 1%nat by lia.
    cbn [for_attempts].
    replace [Fetch q]
      with ((Fetch q :: if 1 + Z.of_nat n <? maxAttempts
                        then [SetTimeout interval] else []) ++ []).
    + eapply yields_bind.
      * apply (wait_attempt_non_terminal remote config jobId maxAttempts
                 interval w' st); [|exact NTst].
        eapply answers_last; [exact Hans'|]. exact Hw'.
      * apply yields_throw.
    + assert (E : (1 + Z.of_nat n <? maxAttempts) = false)
        by (apply Z.ltb_ge; lia).
      now rewrite E.
Qed.

End Wait.

(* ===================================================================== *)
(** ** Properties of the poll loop *)
(* ===================================================================== *)

(** C1 (amended).  When the status sequence served to [wait] consists of
    the non-terminal statuses [before] followed by a [complete] status
    [last], and [maxAttempts] is at least the number of statuses up to and
    including [last], then [wait] returns [last]; it makes exactly
    [length before + 1] status queries and [length before] delays, one
    delay after each query but the last: none before the first query and
    none after the terminal result. *)
Theorem wait_returns_first_complete
    (remote : Remote) (config : Config.t) (jobId : string)
    (maxAttempts interval : Z) (before : list ProofJobStatus)
    (last : ProofJobStatus) (w : World) :
  Forall non_terminal before ->
  status last = complete ->
  Z.of_nat (List.length before) + 1 <= maxAttempts ->
  answers remote w config jobId (before ++ [last]) ->
  let run := wait remote config jobId maxAttempts interval w in
  fst run = Returned last /\
  effects (snd run)
  = effects w
    ++ poll_trace (queryRequest config jobId) interval (List.length before)
    ++ [Fetch (queryRequest config jobId)] /\
  round_trips (snd run) = (round_trips w + List.length before + 1)%nat /\
  delays (snd run) = (delays w + List.length before)%nat.
Proof.
  intros NT C Hle Hans run.
  pose proof (wait_complete_yields remote config jobId maxAttempts interval
                before last w NT C Hle Hans) as Y.
  pose proof (yields_poll_counts config jobId interval _ _ _ _ Y) as [R D].
  destruct Y as [Y1 Y2]. subst run. auto.
Qed.

(** The run of the specification: [pending, pending, complete] with
    [maxAttempts = 5] returns the complete status after 3 queries and 2
    delays. *)
Lemma wait_returns_first_complete_witness :
  let statuses := [status_of pending; status_of pending; proved "0xabc"] in
  let run := wait (scripted "job-1" statuses) testConfig "job-1" 5 3000 [] in
  fst run = Returned (proved "0xabc") /\
  effects (snd run)
  = poll_trace (queryRequest testConfig "job-1") 3000 2
    ++ [Fetch (queryRequest testConfig "job-1")] /\
  round_trips (snd run) = 3%nat /\
  delays (snd run) = 2%nat.
Proof.
  intros statuses.
  apply (wait_returns_first_complete (scripted "job-1" statuses) testConfig
           "job-1" 5 3000 [status_of pending; status_of pending]
           (proved "0xabc") []).
  - repeat constructor.
  - reflexivity.
  - cbn. lia.
  - intros i st H. subst statuses. cbn in *. now rewrite H.
Defined.

(** C1 as stated fails when the attempts run out first: with
    [maxAttempts = 1] and the sequence [pending, complete], [wait] makes
    one query and throws the time-out instead of returning the complete
    status. *)
Lemma wait_complete_out_of_reach :
  let statuses := [status_of pending; proved "0xabc"] in
  let remote := scripted "job-1" statuses in
  let run := wait remote testConfig "job-1" 1 3000 [] in
  answers remote [] testConfig "job-1" statuses /\
  fst run = Thrown (Errors.ProofGenerationTimedOut 1) /\
  fst run <> Returned (proved "0xabc") /\
  round_trips (snd run) = 1%nat.
Proof.
  cbv zeta. split; [|split; [|split]].
  - intros i st H. cbn in *. now rewrite H.
  - vm_compute. reflexivity.
  - vm_compute. discriminate.
  - vm_compute. reflexivity.
Qed.

(** C3 (amended).  When the status sequence served to [wait] consists of
    the non-terminal statuses [before] followed by an [error] status
    [last], and [maxAttempts] is at least the number of statuses up to and
    including [last], then [wait] throws [ProofGenerationFailed] after
    exactly [length before + 1] status queries.  The error carries the
    [failureReason] of [last] when that is a non-empty string, and
    ["Unknown error"] otherwise. *)
Theorem wait_raises_first_error
    (remote : Remote) (config : Config.t) (jobId : string)
    (maxAttempts interval : Z) (before : list ProofJobStatus)
    (last : ProofJobStatus) (w : World) :
  Forall non_terminal before ->
  status last = error ->
  Z.of_nat (List.length before) + 1 <= maxAttempts ->
  answers remote w config jobId (before ++ [last]) ->
  let run := wait remote config jobId maxAttempts interval w in
  fst run
  = Thrown (Errors.ProofGenerationFailed
              (match failureReason last with
               | Some (String c s) => String c s
               | _ => "Unknown error"
               end)) /\
  effects (snd run)
  = effects w
    ++ poll_trace (queryRequest config jobId) interval (List.length before)
    ++ [Fetch (queryRequest config jobId)] /\
  round_trips (snd run) = (round_trips w + List.length before + 1)%nat.
Proof.
  intros NT C Hle Hans run.
  pose proof (wait_error_yields remote config jobId maxAttempts interval
                before last w NT C Hle Hans) as Y.
  pose proof (yields_poll_counts config jobId interval _ _ _ _ Y) as [R D].
  destruct Y as [Y1 Y2]. subst run.
  repeat split; [|exact Y2 | exact R].
  rewrite Y1. unfold Js.or_string.
  destruct (failureReason last) as [[|c s]|]; reflexivity.
Qed.

(** The run of the specification: [pending, error] throws
    [ProofGenerationFailed] with the reported reason after 2 queries. *)
Lemma wait_raises_first_error_witness :
  let statuses := [status_of pending; failed_with "prover crashed"] in
  let run := wait (scripted "job-1" statuses) testConfig "job-1" 20 3000 [] in
  fst run = Thrown (Errors.ProofGenerationFailed "prover crashed") /\
  effects (snd run)
  = poll_trace (queryRequest testConfig "job-1") 3000 1
    ++ [Fetch (queryRequest testConfig "job-1")] /\
  round_trips (snd run) = 2%nat.
Proof.
  intros statuses.
  apply (wait_raises_first_error (scripted "job-1" statuses) testConfig
           "job-1" 20 3000 [status_of pending]
           (failed_with "prover crashed") []).
  - repeat constructor.
  - reflexivity.
  - cbn. lia.
  - intros i st H. subst statuses. cbn in *. now rewrite H.
Defined.

(** C3 as stated fails when the attempts run out first: with
    [maxAttempts = 1] and the sequence [pending, error], [wait] makes one
    query and throws the time-out, not [ProofGenerationFailed]. *)
Lemma wait_error_out_of_reach :
  let statuses := [status_of pending; failed_with "prover crashed"] in
  let remote := scripted "job-1" statuses in
  let run := wait remote testConfig "job-1" 1 3000 [] in
  answers remote [] testConfig "job-1" statuses /\
  fst run = Thrown (Errors.ProofGenerationTimedOut 1) /\
  fst run <> Thrown (Errors.ProofGenerationFailed "prover crashed") /\
  round_trips (snd run) = 1%nat.
Proof.
  cbv zeta. split; [|split; [|split]].
  - intros i st H. cbn in *. now rewrite H.
  - vm_compute. reflexivity.
  - vm_compute. discriminate.
  - vm_compute. reflexivity.
Qed.

(* ===================================================================== *)
(** ** Computations only add events *)
(* ===================================================================== *)

Lemma extends_ret {A : Type} (a : A) : extends (ret a).
Proof. intros w. exists []. cbn. now rewrite app_nil_r. Qed.

Lemma extends_throw {A : Type} e : extends (@throw A e).
Proof. intros w. exists []. cbn. now rewrite app_nil_r. Qed.

Lemma extends_lift {A : Type} (o : Outcome A) : extends (lift o).
Proof. intros w. exists []. cbn. now rewrite app_nil_r. Qed.

Lemma extends_emit e : extends (emit e).
Proof. intros w. now exists [e]. Qed.

Lemma extends_bind {A B : Type} (m : M A) (k : A -> M B) :
  extends m -> (forall a, extends (k a)) -> extends (bind m k).
Proof.
  intros Hm Hk w. unfold bind. destruct (Hm w) as [t1 E1].
  destruct (m w) as [[a|e] w1]; cbn in *; subst w1.
  - destruct (Hk a (w ++ t1)) as [t2 E2]. exists (t1 ++ t2).
    now rewrite E2, app_assoc.
  - now exists t1.
Qed.

Lemma extends_try_catch {A : Type} (m : M A) h :
  extends m -> (forall e, extends (h e)) -> extends (try_catch m h).
Proof.
  intros Hm Hh w. unfold try_catch. destruct (Hm w) as [t1 E1].
  destruct (m w) as [[a|e] w1]; cbn in *; subst w1.
  - now exists t1.
  - destruct (Hh e (w ++ t1)) as [t2 E2]. exists (t1 ++ t2).
    now rewrite E2, app_assoc.
Qed.

Lemma extends_log enabled label args :
  extends (Logger.log (createLogger enabled) label args).
Proof. destruct enabled; cbn; [apply extends_emit | apply extends_ret]. Qed.

Lemma extends_error enabled label args :
  extends (Logger.error (createLogger enabled) label args).
Proof. destruct enabled; cbn; [apply extends_emit | apply extends_ret]. Qed.

Lemma extends_fetch {A : Type} remote
    (reply : Remote -> nat -> RpcRequest -> Reply A) req :
  extends (fetch remote reply req).
Proof. intros w. now exists [Fetch req]. Qed.

Lemma extends_unwrap {A : Type} (r : Reply A) : extends (unwrap r).
Proof. destruct r; cbn; (apply extends_throw || apply extends_ret). Qed.

Create HintDb extends.

#[local] Hint Resolve extends_ret extends_throw extends_lift extends_emit
  extends_log extends_error extends_fetch extends_unwrap : extends.

Ltac extends_step :=
  first [ apply extends_bind; [|intros ?]
        | apply extends_try_catch; [|intros ?]
        | solve [auto with extends] ].

Lemma extends_requestProof remote config chain block tx idx :
  extends (requestProof remote config chain block tx idx).
Proof. unfold requestProof. repeat extends_step. Qed.

Lemma extends_queryProofStatus remote config jobId :
  extends (queryProofStatus remote config jobId).
Proof. unfold queryProofStatus. repeat extends_step. Qed.

Lemma extends_wait_attempt remote config jobId maxAttempts interval attempt :
  extends (wait_attempt remote config jobId maxAttempts interval attempt).
Proof.
  unfold wait_attempt.
  apply extends_bind; [auto with extends | intros _].
  apply extends_bind; [apply extends_queryProofStatus | intros result].
  destruct (status result); repeat extends_step;
    destruct (attempt <? maxAttempts); repeat extends_step.
Qed.

Lemma extends_for_attempts {A : Type} (body : Z -> M (option A)) after :
  (forall attempt, extends (body attempt)) -> extends after ->
  forall remaining attempt, extends (for_attempts body after remaining attempt).
Proof.
  intros Hb Ha. induction remaining as [|r IH]; intros attempt; cbn.
  - exact Ha.
  - apply extends_bind; [apply Hb | intros [a|]; [apply extends_ret | apply IH]].
Qed.

Lemma extends_wait remote config jobId maxAttempts interval :
  extends (wait remote config jobId maxAttempts interval).
Proof.
  unfold wait. apply extends_bind; [auto with extends | intros _].
  apply extends_for_attempts;
    [intros; apply extends_wait_attempt | apply extends_throw].
Qed.

(** The effects of [m] come first in the effects of [m] followed by [k]. *)
Lemma bind_effects_prefix {A B : Type} (m : M A) (k : A -> M B) w t :
  effects (snd (m w)) = effects w ++ t ->
  (forall a, extends (k a)) ->
  exists rest, effects (snd (bind m k w)) = effects w ++ t ++ rest.
Proof.
  intros Hm Hk. unfold bind. destruct (m w) as [[a|e] w1]; cbn [fst snd] in *.
  - destruct (Hk a w1) as [t2 E2]. exists (effects t2).
    now rewrite E2, effects_app, Hm, app_assoc.
  - exists []. now rewrite Hm, app_nil_r.
Qed.

(* ===================================================================== *)
(** ** Submission *)
(* ===================================================================== *)

Lemma round_trips_snoc (w : World) (e : Event) :
  round_trips (w ++ [e]) = (round_trips w + if is_fetch e then 1 else 0)%nat.
Proof.
  unfold round_trips. rewrite filter_app, length_app. cbn.
  destruct (is_fetch e); reflexivity.
Qed.

(** [requestProof] makes exactly one round trip, whose params are the
    chain id, the block number as a number, the transaction index and the
    log index; its outcome is decided by the reply alone. *)
Lemma requestProof_run remote config chain block tx idx w :
  let req := proofRequest config chain (blockNumberField block) tx idx in
  let run := requestProof remote config chain block tx idx w in
  fst run = submitted_outcome (requestProofReply remote (round_trips w) req) /\
  effects (snd run) = effects w ++ [Fetch req].
Proof.
  cbv zeta. unfold requestProof, proofRequest.
  set (req := rpc config "log_requestProof" _).
  unfold bind, try_catch, fetch, createLogger, Logger.log, Logger.error.
  destruct (Config.debug config); cbn [emit ret fst snd];
    rewrite ?round_trips_snoc; cbn [is_fetch]; rewrite ?Nat.add_0_r;
    destruct (requestProofReply remote (round_trips w) req);
    cbn [unwrap throw ret emit fst snd submitted_outcome];
    (split; [reflexivity|]);
    rewrite ?effects_app; cbn [effects filter is_console negb];
    rewrite ?app_nil_r; reflexivity.
Qed.

(* ===================================================================== *)
(** ** Log resolution *)
(* ===================================================================== *)

Lemma findIndex_from_first {A : Type} (p : A -> bool) (l : list A) :
  forall k i, first_match p l k -> Js.findIndex_from p l i = i + Z.of_nat k.
Proof.
  induction l as [|x l IH]; intros k i [[y [Hy Py]] Hlt].
  - destruct k; discriminate.
  - cbn [Js.findIndex_from]. destruct k as [|k].
    + cbn in Hy. inversion Hy; subst. rewrite Py. lia.
    + rewrite (Hlt 0%nat x) by (cbn; auto; lia).
      rewrite (IH k (i + 1)); [lia|]. split.
      * exists y. auto.
      * intros j z Hj Hz. apply (Hlt (S j) z); [lia | exact Hz].
Qed.

Lemma findIndex_from_none {A : Type} (p : A -> bool) (l : list A) :
  forall i, no_match p l -> Js.findIndex_from p l i = -1.
Proof.
  induction l as [|x l IH]; intros i H; [reflexivity|].
  cbn [Js.findIndex_from]. rewrite (H x) by now left.
  apply IH. intros y Hy. apply H. now right.
Qed.

(** Every list has a first match or none at all. *)
Lemma first_match_or_none {A : Type} (p : A -> bool) (l : list A) :
  (exists k, first_match p l k) \/ no_match p l.
Proof.
  induction l as [|x l IH].
  - right. intros x [].
  - destruct (p x) eqn:Px.
    + left. exists 0%nat. split; [exists x; auto | intros j y Hj; lia].
    + destruct IH as [[k [[y [Hy Py]] Hlt]] | Hn].
      * left. exists (S k). split; [exists y; auto|].
        intros [|j] z Hj Hz; cbn in Hz.
        -- inversion Hz; subst. exact Px.
        -- apply (Hlt j z); [lia | exact Hz].
      * right. intros y [<-|Hy]; [exact Px | now apply Hn].
Qed.

Lemma first_match_unique {A : Type} (p : A -> bool) (l : list A) k1 k2 :
  first_match p l k1 -> first_match p l k2 -> k1 = k2.
Proof.
  intros [[x1 [H1 P1]] L1] [[x2 [H2 P2]] L2].
  destruct (Nat.lt_trichotomy k1 k2) as [H|[H|H]]; [|exact H|].
  - rewrite (L2 k1 x1 H H1) in P1. discriminate.
  - rewrite (L1 k2 x2 H H2) in P2. discriminate.
Qed.

Section Resolution.

Variable keccak256 : list Byte.byte -> string.
Variable receipt : TransactionReceipt.

(** A supplied numeric [logIndex] decides alone: negative is refused,
    anything else is taken as it is. *)
Lemma resolve_provided (eventSignature : option string) (idx : Js.number) :
  resolveLogIndex keccak256 receipt eventSignature (Some idx)
  = if Js.lt idx Js.zero
    then Thrown Errors.NegativeLogIndex
    else Returned (Some idx).
Proof.
  unfold resolveLogIndex. cbn [is_number negb].
  rewrite !andb_false_r, andb_false_l.
  destruct (Js.lt idx Js.zero); reflexivity.
Qed.

(** Without a numeric [logIndex], a non-empty signature is hashed and the
    logs are scanned. *)
Lemma resolve_by_signature (c : ascii) (s : string) :
  let signature := String c s in
  let eventTopic := keccak256 (Js.toBytes signature) in
  let foundIndex := Js.findIndex (leading_topic_is eventTopic) (logs receipt) in
  resolveLogIndex keccak256 receipt (Some signature) None
  = if foundIndex =? -1
    then Thrown (Errors.EventNotFound signature)
    else Returned (Some (Js.Number foundIndex)).
Proof. reflexivity. Qed.

(** With neither selector (an empty signature counts as none), the
    resolution refuses. *)
Lemma resolve_no_selector (eventSignature : option string) :
  Js.truthy_opt_string eventSignature = false ->
  resolveLogIndex keccak256 receipt eventSignature None
  = Thrown Errors.SelectorRequired.
Proof. intros H. unfold resolveLogIndex. now rewrite H. Qed.

(** [localLogIndex] is never [undefined] after the resolution. *)
Lemma resolve_defined (eventSignature : option string)
    (providedLogIndex : option Js.number) :
  resolveLogIndex keccak256 receipt eventSignature providedLogIndex
  <> Returned None.
Proof.
  destruct providedLogIndex as [idx|].
  - rewrite resolve_provided. destruct (Js.lt idx Js.zero); discriminate.
  - destruct eventSignature as [[|c s]|].
    + now rewrite resolve_no_selector.
    + rewrite resolve_by_signature. cbv zeta.
      destruct (_ =? -1); discriminate.
    + now rewrite resolve_no_selector.
Qed.

End Resolution.

(* ===================================================================== *)
(** ** From the resolution to the submitted coordinates *)
(* ===================================================================== *)

Section ProveReceipt.

Variable remote : Remote.
Variable keccak256 : list Byte.byte -> string.
Variable client : PublicClient.
Variable config : Config.t.
Variable chain : Js.number.
Variable receipt : TransactionReceipt.
Variables (maxAttempts interval : option Z) (returnJob : option bool).

Hypothesis chain_present : chain_id client = Some chain.
Hypothesis chain_truthy : Js.truthy_number chain = true.

Let options (eventSignature : option string) (logIndex : option Js.number) :=
  Options.mk (Some receipt) eventSignature logIndex maxAttempts interval returnJob.

(** The request [polymerProof] submits for the log coordinate [idx]. *)
Let submission (idx : Js.number) : RpcRequest :=
  proofRequest config chain (blockNumberField (blockNumber receipt))
    (transactionIndex receipt) idx.

(** When the resolution throws, [polymerProof] throws the same error and
    nothing has happened: no console line, no round trip. *)
Lemma polymerProof_refused eventSignature logIndex e w :
  resolveLogIndex keccak256 receipt eventSignature logIndex = Thrown e ->
  polymerProof remote keccak256 client config (options eventSignature logIndex) w
  = (Thrown e, w).
Proof.
  intros H. unfold polymerProof, options. cbn [Options.receipt].
  rewrite chain_present, chain_truthy. cbn [negb Options.eventSignature Options.logIndex].
  unfold bind at 1. unfold lift. rewrite H. reflexivity.
Qed.

(** When the resolution returns [idx], the first thing [polymerProof]
    does to the world is to submit the proof request for [idx]. *)
Lemma polymerProof_submits eventSignature logIndex idx w :
  resolveLogIndex keccak256 receipt eventSignature logIndex = Returned (Some idx) ->
  exists rest,
    effects (snd (polymerProof remote keccak256 client config
                    (options eventSignature logIndex) w))
    = effects w ++ Fetch (submission idx) :: rest.
Proof.
  intros H. unfold polymerProof, options. cbn [Options.receipt].
  rewrite chain_present, chain_truthy.
  cbn [negb Options.eventSignature Options.logIndex Options.maxAttempts
       Options.interval Options.returnJob or_default].
  unfold bind at 1. unfold lift. rewrite H.
  cbn [assert_defined or_default].
  match goal with
  | |- exists rest, effects (snd (bind ?m ?k w)) = _ =>
      pose proof (yields_log (Config.debug config) "Transaction receipt details:"
                    [JNumber chain; json_of_block (blockNumber receipt);
                     JNumber (transactionIndex receipt); JNumber idx;
                     JString (transactionHash receipt)] w) as [L1 L2];
      unfold bind at 1
  end.
  destruct (Logger.log _ _ _ w) as [r w1]. cbn [fst snd] in L1, L2. subst r.
  rewrite app_nil_r in L2. rewrite <- L2.
  apply (bind_effects_prefix _ _ w1 [Fetch (submission idx)]).
  - apply requestProof_run.
  - intros jobId. apply extends_bind; [auto with extends | intros _].
    destruct returnJob as [[|]|]; cbn [or_default];
      try apply extends_ret;
      (apply extends_bind; [apply extends_wait | intros; apply extends_ret]).
Qed.

End ProveReceipt.

(* ===================================================================== *)
(** ** Properties of the log resolution *)
(* ===================================================================== *)





(** With two matching logs the lower position wins. *)
Example resolve_duplicate_transfer :
  resolveLogIndex demo_hash demo_receipt
    (Some "Transfer(address,address,uint256)") None
  = Returned (Some (Js.Number 2)).
Proof. vm_compute. reflexivity. Qed.

Example resolve_missing_event :
  resolveLogIndex demo_hash demo_receipt (Some "Burn(uint256)") None
  = Thrown (Errors.EventNotFound "Burn(uint256)").
Proof. vm_compute. reflexivity. Qed.

(** C5 (amended).  When a numeric [logIndex] is provided, it is refused
    with [InvalidArgument] ("logIndex must be non-negative") exactly when
    it is negative, before any round trip; otherwise it is used unchanged
    as the submitted log coordinate, whether or not it is an integer.
    When neither an [eventSignature] (absent or empty) nor a [logIndex] is
    provided, the resolution fails with [InvalidArgument]
    ("eventSignature or logIndex is required"). *)
Theorem resolve_log_index_guards
    (remote : Remote) (keccak256 : list Byte.byte -> string)
    (client : PublicClient) (config : Config.t) (chain : Js.number)
    (R : TransactionReceipt)
    (maxAttempts interval : option Z) (returnJob : option bool) (w : World) :
  chain_id client = Some chain ->
  Js.truthy_number chain = true ->
  let run eventSignature logIndex :=
    polymerProof remote keccak256 client config
      (Options.mk (Some R) eventSignature logIndex maxAttempts interval returnJob) w in
  (forall eventSignature idx,
      if Js.lt idx Js.zero
      then
        resolveLogIndex keccak256 R eventSignature (Some idx)
        = Thrown Errors.NegativeLogIndex /\
        run eventSignature (Some idx) = (Thrown Errors.NegativeLogIndex, w)
      else
        resolveLogIndex keccak256 R eventSignature (Some idx) = Returned (Some idx) /\
        exists rest,
          effects (snd (run eventSignature (Some idx)))
          = effects w
            ++ Fetch (proofRequest config chain (blockNumberField (blockNumber R))
                        (transactionIndex R) idx)
            :: rest) /\
  resolveLogIndex keccak256 R None None = Thrown Errors.SelectorRequired /\
  run None None = (Thrown Errors.SelectorRequired, w) /\
  resolveLogIndex keccak256 R (Some EmptyString) None = Thrown Errors.SelectorRequired /\
  run (Some EmptyString) None = (Thrown Errors.SelectorRequired, w) /\
  Errors.InvalidArgument Errors.NegativeLogIndex /\
  Errors.InvalidArgument Errors.SelectorRequired.
Proof.
  intros Hc Ht run.
  split; [|repeat split].
  - intros sig idx. pose proof (resolve_provided keccak256 R sig idx) as Hres.
    destruct (Js.lt idx Js.zero).
    + split; [exact Hres|]. unfold run.
      eapply polymerProof_refused; eassumption.
    + split; [exact Hres|]. unfold run.
      eapply polymerProof_submits; eassumption.
  - unfold run. eapply polymerProof_refused; try eassumption. reflexivity.
  - unfold run. eapply polymerProof_refused; try eassumption. reflexivity.
  - now right.
  - now left.
Qed.

Lemma resolve_log_index_guards_witness :
  let run eventSignature logIndex :=
    polymerProof (scripted "job-1" []) demo_hash demo_client testConfig
      (Options.mk (Some demo_receipt) eventSignature logIndex None None (Some true)) [] in
  resolveLogIndex demo_hash demo_receipt None (Some (Js.Number 3))
  = Returned (Some (Js.Number 3)) /\
  (exists rest,
     effects (snd (run None (Some (Js.Number 3))))
     = Fetch (proofRequest testConfig (Js.Number 11155420) (Js.Number 12345)
                (Js.Number 7) (Js.Number 3))
       :: rest) /\
  run None (Some (Js.Number (-1))) = (Thrown Errors.NegativeLogIndex, []) /\
  run None None = (Thrown Errors.SelectorRequired, []).
Proof.
  intros run.
  pose proof (resolve_log_index_guards (scripted "job-1" []) demo_hash
                demo_client testConfig (Js.Number 11155420) demo_receipt
                None None (Some true) [] eq_refl eq_refl) as H.
  cbv zeta in H. destruct H as [H1 [_ [H3 _]]].
  pose proof (H1 None (Js.Number 3)) as Ha.
  pose proof (H1 None (Js.Number (-1))) as Hb.
  cbn in Ha, Hb. destruct Ha as [Ha1 Ha2]. destruct Hb as [_ Hb2].
  repeat split; assumption.
Defined.

(** C5 as stated fails for a non-integer [logIndex]: 1.5 is not refused;
    it is submitted as the log coordinate and the job is created. *)
Lemma non_integer_log_index_accepted :
  let remote := scripted "job-1" [] in
  let options :=
    Options.mk (Some demo_receipt) None (Some one_and_a_half) None None (Some true) in
  Js.is_integer one_and_a_half = false /\
  resolveLogIndex demo_hash demo_receipt None (Some one_and_a_half)
  = Returned (Some one_and_a_half) /\
  polymerProof remote demo_hash demo_client testConfig options []
  = (Returned (ResultJob "job-1" demo_receipt),
     [Fetch (proofRequest testConfig (Js.Number 11155420) (Js.Number 12345)
               (Js.Number 7) one_and_a_half)]).
Proof. vm_compute. repeat split; reflexivity. Qed.



(* ===================================================================== *)
(** ** The public job operations *)
(* ===================================================================== *)

(** C7.  With an empty job identifier, both [polymer.queryProofStatus]
    and [polymer.wait] throw [EmptyHandle] ("Job ID is required") and
    leave the world as it was: no round trip, no timer, no console line. *)
Theorem empty_job_id_is_refused
    (remote : Remote) (polymerConfig : Config.t)
    (maxAttempts interval : option Z) (w : World) :
  polymer_queryProofStatus remote polymerConfig EmptyString w
  = (Thrown Errors.EmptyHandle, w) /\
  polymer_wait remote polymerConfig EmptyString maxAttempts interval w
  = (Thrown Errors.EmptyHandle, w).
Proof. split; reflexivity. Qed.

(** The operations of the object that [polymer(config)(client)] returns
    are the ones above, closed over the merged configuration. *)
Lemma polymer_extension remote keccak256 config client w :
  Js.truthy_string (PolymerConfig.apiKey config) = true ->
  let polymerConfig := mergeConfig DEFAULT_CONFIG config in
  exists w',
    polymer remote keccak256 config client w
    = (Returned
         {| ext_polymerProof := polymerProof remote keccak256 client polymerConfig;
            ext_requestProof := polymer_requestProof remote polymerConfig;
            ext_queryProofStatus := polymer_queryProofStatus remote polymerConfig;
            ext_wait := polymer_wait remote polymerConfig |}, w') /\
    effects w' = effects w.
Proof.
  intros H polymerConfig. unfold polymer. cbn [mergeConfig Config.apiKey].
  rewrite H. cbn [negb]. fold polymerConfig.
  unfold bind, createLogger, Logger.log.
  destruct (Config.debug polymerConfig); cbn [emit ret].
  - eexists. split; [reflexivity|]. rewrite effects_app. cbn. now rewrite app_nil_r.
  - eexists. split; reflexivity.
Qed.



(* ===================================================================== *)
(** ** [Number] of a bigint *)
(* ===================================================================== *)

Lemma iter_xO_value (p m : positive) :
  Zpos (Pos.iter xO m p) = Zpos m * 2 ^ Zpos p.
Proof.
  induction p as [|p IH] using Pos.peano_ind.
  - cbn. lia.
  - rewrite Pos.iter_succ, Pos2Z.inj_xO, IH, Pos2Z.inj_succ.
    rewrite Z.pow_succ_r by lia. lia.
Qed.

Lemma iter_xO_digits (p m : positive) :
  digits2_pos (Pos.iter xO m p) = (digits2_pos m + p)%positive.
Proof.
  induction p as [|p IH] using Pos.peano_ind.
  - cbn. lia.
  - rewrite Pos.iter_succ. cbn [digits2_pos]. rewrite IH. lia.
Qed.

Lemma digits2_pos_lower (m : positive) :
  2 ^ (Zpos (digits2_pos m) - 1) <= Zpos m.
Proof.
  induction m as [m IH|m IH|]; cbn [digits2_pos]; [| |cbn; lia].
  - rewrite Pos2Z.inj_succ.
    replace (Z.succ (Zpos (digits2_pos m)) - 1)
      with (Z.succ (Zpos (digits2_pos m) - 1)) by lia.
    rewrite Z.pow_succ_r by lia. lia.
  - rewrite Pos2Z.inj_succ.
    replace (Z.succ (Zpos (digits2_pos m)) - 1)
      with (Z.succ (Zpos (digits2_pos m) - 1)) by lia.
    rewrite Z.pow_succ_r by lia. lia.
Qed.

Lemma digits2_pos_safe (m : positive) :
  Zpos m < 2 ^ 53 -> Zpos (digits2_pos m) <= 53.
Proof.
  intros H. pose proof (digits2_pos_lower m) as L.
  destruct (Z_le_gt_dec (Zpos (digits2_pos m)) 53) as [|G]; [assumption|].
  exfalso.
  assert (2 ^ 53 <= 2 ^ (Zpos (digits2_pos m) - 1))
    by (apply Z.pow_le_mono_r; lia).
  lia.
Qed.

(** A mantissa that already has 53 digits, with an exponent in the normal
    range, is not rounded. *)
Lemma binary_round_aux_53 (sx : bool) (mz : positive) (ez : Z) :
  Zpos (digits2_pos mz) = 53 ->
  -1074 <= ez <= 971 ->
  binary_round_aux Js.prec Js.emax sx (Zpos mz) ez loc_Exact
  = S754_finite sx mz ez.
Proof.
  intros Hd He.
  assert (F : fexp Js.prec Js.emax (53 + ez) - ez = 0).
  { unfold fexp, emin, Js.prec, Js.emax. lia. }
  unfold binary_round_aux, shr_fexp. cbn [Zdigits2 shr_record_of_loc].
  rewrite Hd, F. cbn [shr shr_m loc_of_shr_record round_nearest_even].
  cbn [Zdigits2 shr_record_of_loc]. rewrite Hd, F. cbn [shr shr_m].
  replace (ez <=? Js.emax - Js.prec) with true; [reflexivity|].
  symmetry. apply Z.leb_le. unfold Js.emax, Js.prec. lia.
Qed.

(** [Number] of a positive bigint below 2^53: the same integer, with the
    mantissa shifted up to 53 digits. *)
Lemma Number_pos_safe (m : positive) :
  Zpos m < 2 ^ 53 ->
  forall sx, exists mz ez,
    binary_round Js.prec Js.emax sx m 0 = S754_finite sx mz ez /\
    -52 <= ez <= 0 /\ Zpos mz = Zpos m * 2 ^ (- ez).
Proof.
  intros H sx. pose proof (digits2_pos_safe m H) as D.
  pose proof (Pos2Z.is_pos (digits2_pos m)) as P.
  unfold binary_round.
  assert (F : fexp Js.prec Js.emax (Zpos (digits2_pos m) + 0)
              = Zpos (digits2_pos m) - 53).
  { unfold fexp, emin, Js.prec, Js.emax. lia. }
  rewrite F. unfold shl_align.
  destruct (Zpos (digits2_pos m) - 53 - 0) as [|d|d] eqn:E; [| lia |].
  - exists m, 0. split; [|split; [lia | cbn; lia]].
    apply binary_round_aux_53; lia.
  - exists (Pos.iter xO m d), (Zpos (digits2_pos m) - 53).
    split; [|split; [lia|]].
    + apply binary_round_aux_53; [|lia].
      rewrite iter_xO_digits, Pos2Z.inj_add. lia.
    + rewrite iter_xO_value. f_equal. f_equal. lia.
Qed.

Lemma to_integer_shifted (sx : bool) (m mz : positive) (ez : Z) :
  -52 <= ez <= 0 ->
  Zpos mz = Zpos m * 2 ^ (- ez) ->
  Js.to_integer (S754_finite sx mz ez)
  = Some ((if sx then (-1) else 1) * Zpos m).
Proof.
  intros He Hm. unfold Js.to_integer.
  destruct ez as [|p|p]; [| lia |].
  - cbn in Hm. do 2 f_equal. lia.
  - change (- Zneg p) with (Zpos p) in Hm. rewrite Hm.
    assert (0 < 2 ^ Zpos p) by (apply Z.pow_pos_nonneg; lia).
    rewrite Z.mod_mul by lia. cbn [Z.eqb].
    rewrite Z.div_mul by lia. reflexivity.
Qed.

(** Every bigint within the safe integer range is converted exactly. *)
Lemma Number_exact_safe (b : Z) :
  Z.abs b < 2 ^ 53 -> Js.to_integer (Js.Number b) = Some b.
Proof.
  intros H. unfold Js.Number, binary_normalize.
  destruct b as [|m|m]; [reflexivity | |].
  - destruct (Number_pos_safe m) with (sx := false) as [mz [ez [E [He Hm]]]];
      [lia|].
    rewrite E, (to_integer_shifted false m mz ez He Hm). reflexivity.
  - destruct (Number_pos_safe m) with (sx := true) as [mz [ez [E [He Hm]]]];
      [lia|].
    rewrite E, (to_integer_shifted true m mz ez He Hm). reflexivity.
Qed.

(** Beyond that range the conversion rounds: 2^53 + 1 becomes 2^53. *)
Example Number_rounds_beyond_safe_range :
  Js.Number (2 ^ 53 + 1) = Js.Number (2 ^ 53) /\
  Js.to_integer (Js.Number (2 ^ 53 + 1)) = Some (2 ^ 53).
Proof. vm_compute. split; reflexivity. Qed.

(** C6.  [requestProof] called with a bigint block number [b] posts one
    request, to the configured endpoint, with method [log_requestProof]
    and the params array chain id, [Number(b)], transaction index, log
    index: the bigint has become a binary64 number before transmission.
    For the bigint 12345 the second parameter is the number 12345
    (mantissa 12345 * 2^39, exponent -39).  A block number that already is
    a number is sent as it is. *)
Theorem requestProof_normalizes_bigint
    (remote : Remote) (config : Config.t)
    (srcChainId txIndex localLogIndex : Js.number) (b : Z) (n : Js.number)
    (w : World) :
  let posted (field : Js.number) : list Event :=
    [Fetch {| url := Config.apiUrl config;
              authorization := ("Bearer " ++ Config.apiKey config)%string;
              rpcMethod := "log_requestProof";
              params := [ JNumber srcChainId; JNumber field;
                          JNumber txIndex; JNumber localLogIndex ] |}] in
  effects (snd (requestProof remote config srcChainId (BlockNumber_bigint b)
                  txIndex localLogIndex w))
  = effects w ++ posted (binary_normalize 53 1024 b 0 false) /\
  effects (snd (requestProof remote config srcChainId (BlockNumber_bigint 12345)
                  txIndex localLogIndex w))
  = effects w ++ posted (S754_finite false 6786735522447360 (-39)) /\
  6786735522447360 = 12345 * 2 ^ 39 /\
  Js.to_integer (S754_finite false 6786735522447360 (-39)) = Some 12345 /\
  effects (snd (requestProof remote config srcChainId (BlockNumber_number n)
                  txIndex localLogIndex w))
  = effects w ++ posted n.
Proof.
  cbv zeta. split; [|split; [|split; [|split]]].
  - apply (requestProof_run remote config srcChainId (BlockNumber_bigint b)).
  - apply (requestProof_run remote config srcChainId (BlockNumber_bigint 12345)).
  - reflexivity.
  - vm_compute. reflexivity.
  - apply (requestProof_run remote config srcChainId (BlockNumber_number n)).
Qed.

(* ===================================================================== *)
(** ** The debug flag *)
(* ===================================================================== *)

Lemma effects_console_log w label args :
  effects (w ++ [ConsoleLog label args]) = effects w.
Proof. rewrite effects_app. cbn. apply app_nil_r. Qed.

Lemma effects_console_error w label args :
  effects (w ++ [ConsoleError label args]) = effects w.
Proof. rewrite effects_app. cbn. apply app_nil_r. Qed.

Lemma console_equiv_ret {A : Type} (a : A) : console_equiv (ret a) (ret a).
Proof. intros w1 w2 H. unfold observe. cbn [ret fst snd]. now rewrite H. Qed.

Lemma console_equiv_throw {A : Type} e : console_equiv (@throw A e) (throw e).
Proof. intros w1 w2 H. unfold observe. cbn [throw fst snd]. now rewrite H. Qed.

Lemma console_equiv_lift {A : Type} (o : Outcome A) :
  console_equiv (lift o) (lift o).
Proof. intros w1 w2 H. unfold observe. cbn [lift fst snd]. now rewrite H. Qed.

Lemma console_equiv_emit e : console_equiv (emit e) (emit e).
Proof.
  intros w1 w2 H. unfold observe. cbn [emit fst snd].
  now rewrite !effects_app, H.
Qed.

(** A console line, written or not, is not observed. *)
Lemma console_equiv_log b1 b2 label args :
  console_equiv (Logger.log (createLogger b1) label args)
                (Logger.log (createLogger b2) label args).
Proof.
  intros w1 w2 H. unfold observe.
  destruct b1, b2; cbn [createLogger Logger.log emit ret fst snd];
    rewrite ?effects_console_log, H; reflexivity.
Qed.

Lemma console_equiv_error b1 b2 label args :
  console_equiv (Logger.error (createLogger b1) label args)
                (Logger.error (createLogger b2) label args).
Proof.
  intros w1 w2 H. unfold observe.
  destruct b1, b2; cbn [createLogger Logger.error emit ret fst snd];
    rewrite ?effects_console_error, H; reflexivity.
Qed.

Lemma console_equiv_fetch {A : Type} remote
    (reply : Remote -> nat -> RpcRequest -> Reply A) req :
  console_equiv (fetch remote reply req) (fetch remote reply req).
Proof.
  intros w1 w2 H. unfold observe. cbn [fetch fst snd].
  now rewrite (round_trips_effects _ _ H), !effects_app, H.
Qed.

Lemma console_equiv_unwrap {A : Type} (r : Reply A) :
  console_equiv (unwrap r) (unwrap r).
Proof.
  destruct r; cbn; (apply console_equiv_throw || apply console_equiv_ret).
Qed.

Lemma console_equiv_bind {A B : Type} (m1 m2 : M A) (k1 k2 : A -> M B) :
  console_equiv m1 m2 ->
  (forall a, console_equiv (k1 a) (k2 a)) ->
  console_equiv (bind m1 k1) (bind m2 k2).
Proof.
  intros Hm Hk w1 w2 H. specialize (Hm w1 w2 H). unfold observe, bind in *.
  destruct (m1 w1) as [o1 v1], (m2 w2) as [o2 v2]. cbn [fst snd] in Hm.
  inversion Hm as [[Ho Hv]]. subst o2.
  destruct o1 as [a|e]; [apply (Hk a v1 v2 Hv) | cbn [fst snd]; now rewrite Hv].
Qed.

Lemma console_equiv_try_catch {A : Type} (m1 m2 : M A) (h1 h2 : Js.Error -> M A) :
  console_equiv m1 m2 ->
  (forall e, console_equiv (h1 e) (h2 e)) ->
  console_equiv (try_catch m1 h1) (try_catch m2 h2).
Proof.
  intros Hm Hh w1 w2 H. specialize (Hm w1 w2 H). unfold observe, try_catch in *.
  destruct (m1 w1) as [o1 v1], (m2 w2) as [o2 v2]. cbn [fst snd] in Hm.
  inversion Hm as [[Ho Hv]]. subst o2.
  destruct o1 as [a|e]; [cbn [fst snd]; now rewrite Hv | apply (Hh e v1 v2 Hv)].
Qed.

Create HintDb console.

#[local] Hint Resolve console_equiv_ret console_equiv_throw console_equiv_lift
  console_equiv_emit console_equiv_log console_equiv_error console_equiv_fetch
  console_equiv_unwrap : console.

Ltac console_step :=
  first [ apply console_equiv_bind; [|intros ?]
        | apply console_equiv_try_catch; [|intros ?]
        | solve [auto with console] ].

Section Debug.

Variable remote : Remote.
Variable keccak256 : list Byte.byte -> string.
Variable config : Config.t.
Variables b1 b2 : bool.

Let c1 : Config.t := with_debug b1 config.
Let c2 : Config.t := with_debug b2 config.

Lemma requestProof_debug chain block tx idx :
  console_equiv (requestProof remote c1 chain block tx idx)
                (requestProof remote c2 chain block tx idx).
Proof.
  unfold requestProof, c1, c2, rpc. cbn [with_debug Config.debug Config.apiUrl Config.apiKey].
  repeat console_step.
Qed.

Lemma queryProofStatus_debug jobId :
  console_equiv (queryProofStatus remote c1 jobId)
                (queryProofStatus remote c2 jobId).
Proof.
  unfold queryProofStatus, c1, c2, rpc. cbn [with_debug Config.debug Config.apiUrl Config.apiKey].
  repeat console_step.
Qed.

Lemma wait_attempt_debug jobId maxAttempts interval attempt :
  console_equiv (wait_attempt remote c1 jobId maxAttempts interval attempt)
                (wait_attempt remote c2 jobId maxAttempts interval attempt).
Proof.
  unfold wait_attempt.
  apply console_equiv_bind; [apply console_equiv_log | intros _].
  apply console_equiv_bind; [apply queryProofStatus_debug | intros result].
  destruct (status result); repeat console_step;
    destruct (attempt <? maxAttempts); repeat console_step;
    apply console_equiv_log.
Qed.

Lemma for_attempts_debug {A : Type} (body1 body2 : Z -> M (option A)) after1 after2 :
  (forall attempt, console_equiv (body1 attempt) (body2 attempt)) ->
  console_equiv after1 after2 ->
  forall remaining attempt,
    console_equiv (for_attempts body1 after1 remaining attempt)
                  (for_attempts body2 after2 remaining attempt).
Proof.
  intros Hb Ha. induction remaining as [|r IH]; intros attempt; cbn [for_attempts].
  - exact Ha.
  - apply console_equiv_bind; [apply Hb|].
    intros [a|]; [apply console_equiv_ret | apply IH].
Qed.

Lemma wait_debug jobId maxAttempts interval :
  console_equiv (wait remote c1 jobId maxAttempts interval)
                (wait remote c2 jobId maxAttempts interval).
Proof.
  unfold wait.
  apply console_equiv_bind; [apply console_equiv_log | intros _].
  apply for_attempts_debug;
    [intros; apply wait_attempt_debug | apply console_equiv_throw].
Qed.

Lemma polymerProof_debug client options :
  console_equiv (polymerProof remote keccak256 client c1 options)
                (polymerProof remote keccak256 client c2 options).
Proof.
  unfold polymerProof.
  destruct (Options.receipt options) as [receipt|]; [|apply console_equiv_throw].
  destruct (negb _); [apply console_equiv_throw|].
  apply console_equiv_bind; [apply console_equiv_lift | intros localLogIndex].
  apply console_equiv_bind; [apply console_equiv_log | intros _].
  apply console_equiv_bind; [apply requestProof_debug | intros jobId].
  apply console_equiv_bind; [apply console_equiv_log | intros _].
  unfold c1, c2. cbn [with_debug Config.maxAttempts Config.interval].
  destruct (or_default (Options.returnJob options) false);
    [apply console_equiv_ret|].
  apply console_equiv_bind; [apply wait_debug | intros; apply console_equiv_ret].
Qed.

Lemma polymer_queryProofStatus_debug jobId :
  console_equiv (polymer_queryProofStatus remote c1 jobId)
                (polymer_queryProofStatus remote c2 jobId).
Proof.
  unfold polymer_queryProofStatus.
  destruct (negb _); [apply console_equiv_throw | apply queryProofStatus_debug].
Qed.

Lemma polymer_wait_debug jobId maxAttempts interval :
  console_equiv (polymer_wait remote c1 jobId maxAttempts interval)
                (polymer_wait remote c2 jobId maxAttempts interval).
Proof.
  unfold polymer_wait.
  destruct (negb _); [apply console_equiv_throw|].
  unfold c1, c2. cbn [with_debug Config.maxAttempts Config.interval].
  apply wait_debug.
Qed.

End Debug.

(** C8.  Two configurations that differ only in the debug flag cannot be
    told apart by what the operations return or throw, nor by the round
    trips and timers they cause: from the same world and against the same
    service, [polymerProof], [requestProof], [queryProofStatus] and [wait]
    (the module functions and the public [polymer.*] entry points) end
    with the same outcome and the same effects.  Only console lines
    differ. *)
Theorem debug_flag_is_unobservable
    (remote : Remote) (keccak256 : list Byte.byte -> string)
    (client : PublicClient) (config : Config.t) (b1 b2 : bool) (w : World) :
  let c1 := with_debug b1 config in
  let c2 := with_debug b2 config in
  (forall options,
      observe (polymerProof remote keccak256 client c1 options w)
      = observe (polymerProof remote keccak256 client c2 options w)) /\
  (forall chain block tx idx,
      observe (requestProof remote c1 chain block tx idx w)
      = observe (requestProof remote c2 chain block tx idx w)) /\
  (forall p,
      observe (polymer_requestProof remote c1 p w)
      = observe (polymer_requestProof remote c2 p w)) /\
  (forall jobId,
      observe (queryProofStatus remote c1 jobId w)
      = observe (queryProofStatus remote c2 jobId w)) /\
  (forall jobId,
      observe (polymer_queryProofStatus remote c1 jobId w)
      = observe (polymer_queryProofStatus remote c2 jobId w)) /\
  (forall jobId maxAttempts interval,
      observe (wait remote c1 jobId maxAttempts interval w)
      = observe (wait remote c2 jobId maxAttempts interval w)) /\
  (forall jobId maxAttempts interval,
      observe (polymer_wait remote c1 jobId maxAttempts interval w)
      = observe (polymer_wait remote c2 jobId maxAttempts interval w)).
Proof.
  cbv zeta. repeat split; intros.
  - now apply polymerProof_debug.
  - now apply requestProof_debug.
  - now apply requestProof_debug.
  - now apply queryProofStatus_debug.
  - now apply polymer_queryProofStatus_debug.
  - now apply wait_debug.
  - now apply polymer_wait_debug.
Qed.

(** With the console on, the same poll writes lines but observes the same. *)
Example debug_run_same_effects :
  let statuses := [status_of pending; proved "0xabc"] in
  let quiet := wait (scripted "job-1" statuses) (with_debug false testConfig)
                 "job-1" 5 3000 [] in
  let loud := wait (scripted "job-1" statuses) (with_debug true testConfig)
                "job-1" 5 3000 [] in
  observe quiet = observe loud /\
  List.length (snd quiet) = 3%nat /\
  List.length (snd loud) = 10%nat.
Proof. vm_compute. repeat split; reflexivity. Qed.

(* ===================================================================== *)
(** ** Single round trips *)
(* ===================================================================== *)

Lemma submitted_outcome_reply (r : Reply string) :
  submitted_outcome r = reply_outcome r.
Proof. destruct r; reflexivity. Qed.

(** [queryProofStatus] makes exactly one round trip, whose outcome is
    decided by the reply alone. *)
Lemma queryProofStatus_run remote config jobId w :
  let q := queryRequest config jobId in
  yields (queryProofStatus remote config jobId) w
    (reply_outcome (queryProofReply remote (round_trips w) q)) [Fetch q].
Proof.
  cbv zeta. unfold yields, queryProofStatus, queryRequest.
  set (q := rpc config "log_queryProof" _).
  unfold bind, try_catch, fetch, createLogger, Logger.log, Logger.error.
  destruct (Config.debug config); cbn [emit ret fst snd];
    rewrite ?round_trips_snoc; cbn [is_fetch]; rewrite ?Nat.add_0_r;
    destruct (queryProofReply remote (round_trips w) q);
    cbn [unwrap throw ret emit fst snd reply_outcome];
    (split; [reflexivity|]);
    rewrite ?effects_app; cbn [effects filter is_console negb];
    rewrite ?app_nil_r; reflexivity.
Qed.

Lemma yields_observe {A : Type} (m : M A) w o t :
  yields m w o t <-> observe (m w) = (o, effects w ++ t).
Proof.
  unfold yields, observe. split.
  - intros [-> ->]. reflexivity.
  - intros H. inversion H. auto.
Qed.

(** One attempt of [wait], for every reply. *)
Lemma wait_attempt_run remote config jobId maxAttempts interval attempt w :
  let r := queryProofReply remote (round_trips w) (queryRequest config jobId) in
  yields (wait_attempt remote config jobId maxAttempts interval attempt) w
    (fst (attempt_outcome config jobId maxAttempts interval attempt r))
    (snd (attempt_outcome config jobId maxAttempts interval attempt r)).
Proof.
  cbv zeta.
  destruct (queryProofReply remote (round_trips w) (queryRequest config jobId))
    as [e|code|j|st] eqn:R.
  1-3: unfold wait_attempt, attempt_outcome; cbn [fst snd];
    change [Fetch (queryRequest config jobId)]
      with ([] ++ [Fetch (queryRequest config jobId)]);
    (eapply yields_bind; [apply yields_log|]);
    apply yields_bind_thrown;
    match goal with
    | |- yields _ ?w1 _ _ =>
        pose proof (queryProofStatus_run remote config jobId w1) as Q
    end;
    cbv zeta in Q;
    rewrite (yields_round_trips _ _ _ _ (yields_log _ _ _ w)) in Q;
    cbn [filter List.length] in Q; rewrite Nat.add_0_r, R in Q; exact Q.
  unfold attempt_outcome. destruct (status st) eqn:S; cbn [fst snd].
  - apply (wait_attempt_non_terminal remote config jobId maxAttempts interval
             w st attempt R). unfold non_terminal. now rewrite S.
  - apply (wait_attempt_non_terminal remote config jobId maxAttempts interval
             w st attempt R). unfold non_terminal. now rewrite S.
  - now apply wait_attempt_complete.
  - now apply wait_attempt_error.
Qed.

(** An attempt ends in one of three ways. *)
Lemma attempt_outcome_cases config jobId maxAttempts interval attempt r :
  let q := queryRequest config jobId in
  let a := attempt_outcome config jobId maxAttempts interval attempt r in
  (exists st, status st = complete /\ r = RpcSuccess st /\
              a = (Returned (Some st), [Fetch q])) \/
  (exists e, a = (Thrown e, [Fetch q])) \/
  ((exists st, r = RpcSuccess st /\ non_terminal st) /\
   a = (Returned None,
        Fetch q :: if attempt <? maxAttempts then [SetTimeout interval] else [])).
Proof.
  cbv zeta. unfold attempt_outcome.
  destruct r as [e|code|j|st]; try (right; left; eexists; reflexivity).
  destruct (status st) eqn:S.
  - right. right. split; [|reflexivity]. exists st. split; [reflexivity|].
    unfold non_terminal. now rewrite S.
  - right. right. split; [|reflexivity]. exists st. split; [reflexivity|].
    unfold non_terminal. now rewrite S.
  - left. exists st. auto.
  - right. left. eexists. reflexivity.
Qed.

(* ===================================================================== *)
(** ** The poll loop against an arbitrary service *)
(* ===================================================================== *)

Section AnyService.

Variable remote : Remote.
Variable config : Config.t.
Variable jobId : string.
Variables maxAttempts interval : Z.

Let q : RpcRequest := queryRequest config jobId.

Let timed_out : M ProofJobStatus :=
  throw (Errors.ProofGenerationTimedOut maxAttempts).

(** Whatever the service replies, the loop with [remaining] attempts left,
    the last of which is attempt [maxAttempts], ends after some polls that
    each end in a delay and one final query, and it returns only a
    [complete] status. *)
Lemma for_attempts_shape :
  forall (remaining : nat) (attempt : Z) (w : World),
    Z.of_nat remaining = maxAttempts - attempt + 1 ->
    (0 < remaining)%nat ->
    exists o n,
      (n < remaining)%nat /\
      yields (for_attempts (wait_attempt remote config jobId maxAttempts interval)
                timed_out remaining attempt) w o
        (poll_trace q interval n ++ [Fetch q]) /\
      (forall st, o = Returned st -> status st = complete).
Proof.
  induction remaining as [|r IH]; intros attempt w Hinv Hpos; [lia|].
  cbn [for_attempts].
  pose proof (wait_attempt_run remote config jobId maxAttempts interval attempt w)
    as Y. cbv zeta in Y.
  destruct (attempt_outcome_cases config jobId maxAttempts interval attempt
              (queryProofReply remote (round_trips w) (queryRequest config jobId)))
    as [[st [C [_ E]]] | [[e E] | [_ E]]];
    cbv zeta in E; rewrite E in Y; cbn [fst snd] in Y; fold q in Y.
  - exists (Returned st), 0%nat. cbn [poll_trace app].
    split; [lia|]. split.
    + change [Fetch q] with ([Fetch q] ++ []).
      eapply yields_bind; [exact Y | apply yields_ret].
    + intros s H. inversion H; subst. exact C.
  - exists (Thrown e), 0%nat. cbn [poll_trace app].
    split; [lia|]. split; [apply yields_bind_thrown; exact Y | discriminate].
  - destruct r as [|r'].
    + assert (L : (attempt <? maxAttempts) = false) by (apply Z.ltb_ge; lia).
      rewrite L in Y.
      exists (Thrown (Errors.ProofGenerationTimedOut maxAttempts)), 0%nat.
      cbn [poll_trace app for_attempts].
      split; [lia|]. split; [|discriminate].
      change [Fetch q] with ([Fetch q] ++ []).
      eapply yields_bind; [exact Y | apply yields_throw].
    + assert (L : (attempt <? maxAttempts) = true) by (apply Z.ltb_lt; lia).
      rewrite L in Y.
      destruct (IH (attempt + 1)
                  (snd (wait_attempt remote config jobId maxAttempts interval
                          attempt w)))
        as [o [n [Hn [Y' HR]]]]; [lia | lia |].
      exists o, (S n).
      split; [lia|]. split; [|exact HR].
      change (poll_trace q interval (S n) ++ [Fetch q])
        with ([Fetch q; SetTimeout interval]
              ++ (poll_trace q interval n ++ [Fetch q])).
      eapply yields_bind; [exact Y | exact Y'].
Qed.

(** [wait] against an arbitrary service. *)
Lemma wait_shape (w : World) :
  exists o t,
    yields (wait remote config jobId maxAttempts interval) w o t /\
    (forall st, o = Returned st -> status st = complete) /\
    ((maxAttempts <= 0 /\ t = [] /\
      o = Thrown (Errors.ProofGenerationTimedOut maxAttempts)) \/
     (exists n, Z.of_nat n < maxAttempts /\
                t = poll_trace q interval n ++ [Fetch q])).
Proof.
  unfold wait.
  destruct (Z.to_nat maxAttempts) as [|r] eqn:E.
  - exists (Thrown (Errors.ProofGenerationTimedOut maxAttempts)), [].
    split; [|split; [discriminate | left; repeat split; lia]].
    change (@nil Event) with (@nil Event ++ []).
    eapply yields_bind; [apply yields_log | apply yields_throw].
  - match goal with
    | |- context [bind ?m _] =>
        destruct (for_attempts_shape (S r) 1 (snd (m w)))
          as [o [n [Hn [Y HR]]]]; [lia | lia |]
    end.
    exists o, (poll_trace q interval n ++ [Fetch q]).
    split; [|split; [exact HR | right; exists n; split; [lia | reflexivity]]].
    match goal with |- yields _ _ _ ?t0 => change t0 with ([] ++ t0) end.
    eapply yields_bind; [apply yields_log | exact Y].
Qed.

End AnyService.

Lemma attempt_outcome_failure config jobId maxAttempts interval attempt
    (r : Reply ProofJobStatus) e :
  reply_outcome r = Thrown e ->
  attempt_outcome config jobId maxAttempts interval attempt r
  = (Thrown e, [Fetch (queryRequest config jobId)]).
Proof.
  destruct r; cbn [reply_outcome attempt_outcome]; intros H;
    inversion H; reflexivity.
Qed.

Lemma attempt_outcome_non_terminal config jobId maxAttempts interval attempt st :
  non_terminal st ->
  attempt_outcome config jobId maxAttempts interval attempt (RpcSuccess st)
  = (Returned None,
     Fetch (queryRequest config jobId)
       :: if attempt <? maxAttempts then [SetTimeout interval] else []).
Proof.
  unfold non_terminal, attempt_outcome.
  destruct (status st); cbn; intros H; (discriminate || reflexivity).
Qed.

Lemma answers_same_round_trips remote w1 w2 config jobId statuses :
  round_trips w1 = round_trips w2 ->
  answers remote w1 config jobId statuses ->
  answers remote w2 config jobId statuses.
Proof. intros E H i st Hi. rewrite <- E. now apply H. Qed.

(** Two services whose replies a poll cannot tell apart give the same
    attempt. *)
Lemma wait_attempt_same_progress remote1 remote2 config jobId maxAttempts
    interval attempt :
  (forall k req,
     same_progress (queryProofReply remote1 k req) (queryProofReply remote2 k req)) ->
  console_equiv (wait_attempt remote1 config jobId maxAttempts interval attempt)
                (wait_attempt remote2 config jobId maxAttempts interval attempt).
Proof.
  intros H w1 w2 E.
  pose proof (wait_attempt_run remote1 config jobId maxAttempts interval attempt w1)
    as Y1.
  pose proof (wait_attempt_run remote2 config jobId maxAttempts interval attempt w2)
    as Y2.
  cbv zeta in Y1, Y2. apply yields_observe in Y1. apply yields_observe in Y2.
  rewrite Y1, Y2, E, (round_trips_effects _ _ E).
  destruct (H (round_trips w2) (queryRequest config jobId))
    as [->|[s1 [s2 [-> [-> [N1 N2]]]]]]; [reflexivity|].
  now rewrite !attempt_outcome_non_terminal.
Qed.

Lemma wait_same_progress remote1 remote2 config jobId maxAttempts interval :
  (forall k req,
     same_progress (queryProofReply remote1 k req) (queryProofReply remote2 k req)) ->
  console_equiv (wait remote1 config jobId maxAttempts interval)
                (wait remote2 config jobId maxAttempts interval).
Proof.
  intros H. unfold wait.
  apply console_equiv_bind; [apply console_equiv_log | intros _].
  apply for_attempts_debug;
    [intros; now apply wait_attempt_same_progress | apply console_equiv_throw].
Qed.

Lemma wait_console remote config jobId maxAttempts interval :
  console_equiv (wait remote config jobId maxAttempts interval)
                (wait remote config jobId maxAttempts interval).
Proof. apply wait_same_progress. intros k req. now left. Qed.

(* ===================================================================== *)
(** ** Further properties of the poll loop *)
(* ===================================================================== *)

(** X2.  Whatever the service replies, a status that [wait] returns is a
    [complete] one: a pending, generating or error status is never handed
    to the caller. *)
Theorem wait_returns_only_complete
    (remote : Remote) (config : Config.t) (jobId : string)
    (maxAttempts interval : Z) (w : World) (st : ProofJobStatus) :
  fst (wait remote config jobId maxAttempts interval w) = Returned st ->
  status st = complete.
Proof.
  intros H.
  destruct (wait_shape remote config jobId maxAttempts interval w)
    as [o [t [[Y1 _] [HR _]]]].
  apply HR. now rewrite <- Y1.
Qed.

Lemma wait_returns_only_complete_witness :
  status (proved "0xabc") = complete.
Proof.
  apply (wait_returns_only_complete
           (scripted "job-1" [status_of generating; proved "0xabc"])
           testConfig "job-1" 5 3000 [] (proved "0xabc")).
  vm_compute. reflexivity.
Defined.

(** X3.  A failed status query is not retried: when the polls so far saw
    the non-terminal statuses [before] and the next round trip fails (the
    fetch is rejected, the HTTP status is not ok, or the reply is an error
    envelope), [wait] throws that failure right after that query, even if
    attempts remain. *)
Theorem wait_propagates_query_failure
    (remote : Remote) (config : Config.t) (jobId : string)
    (maxAttempts interval : Z) (before : list ProofJobStatus)
    (e : Js.Error) (w : World) :
  Forall non_terminal before ->
  Z.of_nat (List.length before) + 1 <= maxAttempts ->
  answers remote w config jobId before ->
  reply_outcome
    (queryProofReply remote (round_trips w + List.length before)%nat
       (queryRequest config jobId))
  = Thrown e ->
  let run := wait remote config jobId maxAttempts interval w in
  fst run = Thrown e /\
  effects (snd run)
  = effects w
    ++ poll_trace (queryRequest config jobId) interval (List.length before)
    ++ [Fetch (queryRequest config jobId)].
Proof.
  intros NT Hle Hans Hr. cbv zeta.
  apply (wait_prefix remote config jobId maxAttempts interval before w);
    [exact NT | lia | exact Hans |].
  intros w' Hw'.
  destruct (Z.to_nat maxAttempts - List.length before)%nat as [|r] eqn:E; [lia|].
  cbn [for_attempts]. apply yields_bind_thrown.
  pose proof (wait_attempt_run remote config jobId maxAttempts interval
                (1 + Z.of_nat (List.length before)) w') as Y.
  cbv zeta in Y.
  rewrite (round_trips_extend _ _ _ Hw'), poll_trace_fetches in Y.
  rewrite (attempt_outcome_failure _ _ _ _ _ _ e Hr) in Y. exact Y.
Qed.

Lemma wait_propagates_query_failure_witness :
  let run := wait (scripted "job-1" [status_of pending]) testConfig "job-1"
               20 3000 [] in
  fst run = Thrown (Js.mkError "fetch failed") /\
  effects (snd run)
  = poll_trace (queryRequest testConfig "job-1") 3000 1
    ++ [Fetch (queryRequest testConfig "job-1")].
Proof.
  apply (wait_propagates_query_failure (scripted "job-1" [status_of pending])
           testConfig "job-1" 20 3000 [status_of pending]
           (Js.mkError "fetch failed") []).
  - repeat constructor.
  - cbn. lia.
  - intros i st H. cbn in *. now rewrite H.
  - reflexivity.
Defined.

(** X4.  [pending] and [generating] are the same to the loop: against two
    services whose replies differ at most in which non-terminal status
    they report, [wait] ends with the same outcome after the same round
    trips and delays. *)
Theorem wait_ignores_non_terminal_kind
    (remote1 remote2 : Remote) (config : Config.t) (jobId : string)
    (maxAttempts interval : Z) (w : World) :
  (forall k req,
     same_progress (queryProofReply remote1 k req) (queryProofReply remote2 k req)) ->
  observe (wait remote1 config jobId maxAttempts interval w)
  = observe (wait remote2 config jobId maxAttempts interval w).
Proof.
  intros H.
  now apply (wait_same_progress remote1 remote2 config jobId maxAttempts interval H).
Qed.

Lemma wait_ignores_non_terminal_kind_witness :
  observe (wait (scripted "job-1" [status_of pending; proved "0xabc"])
             testConfig "job-1" 5 3000 [])
  = observe (wait (scripted "job-1" [status_of generating; proved "0xabc"])
               testConfig "job-1" 5 3000 []).
Proof.
  apply (wait_ignores_non_terminal_kind
           (scripted "job-1" [status_of pending; proved "0xabc"])
           (scripted "job-1" [status_of generating; proved "0xabc"])
           testConfig "job-1" 5 3000 []).
  intros k req. destruct k as [|[|k]]; cbn.
  - right. exists (status_of pending), (status_of generating).
    repeat split; reflexivity.
  - now left.
  - left. destruct k; reflexivity.
Defined.

(* ===================================================================== *)
(** ** Further properties of the two round trips *)
(* ===================================================================== *)

(** X5.  [requestProof] makes exactly one round trip whatever the service
    replies, and never a timer: a success returns the job identifier as it
    came; a rejected fetch rethrows its error; a non-ok HTTP status [code]
    throws "HTTP error! status: code"; an error envelope throws
    "Polymer API error: " followed by the envelope.  Nothing is retried. *)
Theorem requestProof_single_round_trip
    (remote : Remote) (config : Config.t)
    (srcChainId txIndex localLogIndex : Js.number) (srcBlockNumber : BlockNumber)
    (w : World) :
  let req := proofRequest config srcChainId (blockNumberField srcBlockNumber)
               txIndex localLogIndex in
  let run := requestProof remote config srcChainId srcBlockNumber txIndex
               localLogIndex w in
  fst run = reply_outcome (requestProofReply remote (round_trips w) req) /\
  effects (snd run) = effects w ++ [Fetch req] /\
  round_trips (snd run) = S (round_trips w) /\
  delays (snd run) = delays w.
Proof.
  cbv zeta.
  destruct (requestProof_run remote config srcChainId srcBlockNumber txIndex
              localLogIndex w) as [H1 H2].
  rewrite submitted_outcome_reply in H1.
  repeat split; [exact H1 | exact H2 | |].
  - rewrite (round_trips_extend _ _ _ H2). cbn. lia.
  - rewrite (delays_extend _ _ _ H2). cbn. lia.
Qed.

(** X6.  [queryProofStatus] makes exactly one round trip for
    [log_queryProof] with the job identifier as its only parameter,
    whatever the service replies: a success returns the status object as it
    came, extra fields included; the three failures throw as in
    [requestProof].  Nothing is cached or retried. *)
Theorem queryProofStatus_single_round_trip
    (remote : Remote) (config : Config.t) (jobId : string) (w : World) :
  let req := rpc config "log_queryProof" [JString jobId] in
  let run := queryProofStatus remote config jobId w in
  fst run = reply_outcome (queryProofReply remote (round_trips w) req) /\
  effects (snd run) = effects w ++ [Fetch req] /\
  round_trips (snd run) = S (round_trips w) /\
  delays (snd run) = delays w.
Proof.
  cbv zeta.
  destruct (queryProofStatus_run remote config jobId w) as [H1 H2].
  repeat split; [exact H1 | exact H2 | |].
  - rewrite (round_trips_extend _ _ _ H2). cbn. lia.
  - rewrite (delays_extend _ _ _ H2). cbn. lia.
Qed.

(* ===================================================================== *)
(** ** [polymerProof] as submission followed by polling *)
(* ===================================================================== *)

Lemma console_equiv_log_left {A : Type} enabled label args (m1 m2 : M A) :
  console_equiv m1 m2 ->
  console_equiv (bind (Logger.log (createLogger enabled) label args) (fun _ => m1)) m2.
Proof.
  intros H w1 w2 E. unfold bind.
  destruct enabled; cbn [createLogger Logger.log emit ret].
  - apply H. now rewrite effects_console_log.
  - now apply H.
Qed.

Lemma requestProof_console remote config chain block tx idx :
  console_equiv (requestProof remote config chain block tx idx)
                (requestProof remote config chain block tx idx).
Proof. unfold requestProof. repeat console_step. Qed.

Lemma queryProofStatus_console remote config jobId :
  console_equiv (queryProofStatus remote config jobId)
                (queryProofStatus remote config jobId).
Proof. unfold queryProofStatus. repeat console_step. Qed.


Lemma console_equiv_lift_returned {A B : Type} (a : A) (k : A -> M B) (m : M B) :
  console_equiv (k a) m -> console_equiv (bind (lift (Returned a)) k) m.
Proof. intros H w1 w2 E. exact (H w1 w2 E). Qed.

Section Pipeline.

Variable remote : Remote.
Variable keccak256 : list Byte.byte -> string.
Variable client : PublicClient.
Variable config : Config.t.
Variable chain : Js.number.
Variable receipt : TransactionReceipt.
Variables (eventSignature : option string) (logIndex : option Js.number).
Variables (maxAttempts interval : option Z) (returnJob : option bool).
Variable idx : Js.number.

Hypothesis chain_present : chain_id client = Some chain.
Hypothesis chain_truthy : Js.truthy_number chain = true.
Hypothesis resolved :
  resolveLogIndex keccak256 receipt eventSignature logIndex = Returned (Some idx).

Let options : Options.t :=
  Options.mk (Some receipt) eventSignature logIndex maxAttempts interval returnJob.

Let submission : RpcRequest :=
  proofRequest config chain (blockNumberField (blockNumber receipt))
    (transactionIndex receipt) idx.

(** Once the log is resolved, [polymerProof] is, but for console lines,
    the submission followed by the return of the job or by its polling. *)
Lemma polymerProof_pipeline :
  console_equiv
    (polymerProof remote keccak256 client config options)
    (bind (requestProof remote config chain (blockNumber receipt)
             (transactionIndex receipt) idx)
       (fun jobId =>
          if or_default returnJob false
          then ret (ResultJob jobId receipt)
          else
            bind (wait remote config jobId
                    (or_default maxAttempts (Config.maxAttempts config))
                    (or_default interval (Config.interval config)))
              (fun result => ret (ResultStatus result)))).
Proof.
  unfold polymerProof, options. cbn [Options.receipt].
  rewrite chain_present, chain_truthy.
  cbn [negb Options.eventSignature Options.logIndex Options.maxAttempts
       Options.interval Options.returnJob].
  rewrite resolved. apply console_equiv_lift_returned.
  cbn [assert_defined or_default].
  apply console_equiv_log_left.
  apply console_equiv_bind; [apply requestProof_console | intros jobId].
  apply console_equiv_log_left.
  destruct returnJob as [[|]|]; cbv zeta; cbn [or_default];
    try apply console_equiv_ret;
    (apply console_equiv_bind; [apply wait_console | intros; apply console_equiv_ret]).
Qed.

(** The submission of [polymerProof], as a run of the pipeline. *)
Lemma pipeline_submission (w : World) :
  yields (requestProof remote config chain (blockNumber receipt)
            (transactionIndex receipt) idx) w
    (reply_outcome (requestProofReply remote (round_trips w) submission))
    [Fetch submission].
Proof.
  destruct (requestProof_run remote config chain (blockNumber receipt)
              (transactionIndex receipt) idx w) as [H1 H2].
  rewrite submitted_outcome_reply in H1. split; assumption.
Qed.

Lemma polymerProof_job (w : World) (jobId : string) :
  requestProofReply remote (round_trips w) submission = RpcSuccess jobId ->
  or_default returnJob false = true ->
  observe (polymerProof remote keccak256 client config options w)
  = (Returned (ResultJob jobId receipt), effects w ++ [Fetch submission]).
Proof.
  intros Hr Hj. rewrite (polymerProof_pipeline w w eq_refl).
  apply yields_observe. rewrite Hj.
  change [Fetch submission] with ([Fetch submission] ++ []).
  eapply yields_bind; [|apply yields_ret].
  pose proof (pipeline_submission w) as Y. now rewrite Hr in Y.
Qed.

Lemma polymerProof_submission_fails (w : World) (e : Js.Error) :
  reply_outcome (requestProofReply remote (round_trips w) submission) = Thrown e ->
  observe (polymerProof remote keccak256 client config options w)
  = (Thrown e, effects w ++ [Fetch submission]).
Proof.
  intros Hr. rewrite (polymerProof_pipeline w w eq_refl).
  apply yields_observe. apply yields_bind_thrown.
  pose proof (pipeline_submission w) as Y. now rewrite Hr in Y.
Qed.

(** The polling part of [polymerProof], given how [wait] runs after the
    submission. *)
Lemma polymerProof_polls (w : World) (jobId : string) o t :
  requestProofReply remote (round_trips w) submission = RpcSuccess jobId ->
  or_default returnJob false = false ->
  (forall w', effects w' = effects w ++ [Fetch submission] ->
     yields (wait remote config jobId
               (or_default maxAttempts (Config.maxAttempts config))
               (or_default interval (Config.interval config))) w' o t) ->
  observe (polymerProof remote keccak256 client config options w)
  = (match o with
     | Returned st => Returned (ResultStatus st)
     | Thrown e => Thrown e
     end, effects w ++ Fetch submission :: t).
Proof.
  intros Hr Hj K. rewrite (polymerProof_pipeline w w eq_refl).
  apply yields_observe. rewrite Hj.
  change (Fetch submission :: t) with ([Fetch submission] ++ t).
  pose proof (pipeline_submission w) as Y. rewrite Hr in Y.
  eapply yields_bind; [exact Y|]. cbn [reply_outcome].
  destruct Y as [_ Y2]. specialize (K _ Y2).
  destruct o as [st|e].
  - rewrite <- (app_nil_r t). eapply yields_bind; [exact K | apply yields_ret].
  - apply yields_bind_thrown. exact K.
Qed.

End Pipeline.

Lemma wait_no_attempts_yields remote config jobId maxAttempts interval w :
  maxAttempts <= 0 ->
  yields (wait remote config jobId maxAttempts interval) w
    (Thrown (Errors.ProofGenerationTimedOut maxAttempts)) [].
Proof.
  intros H. unfold wait. replace (Z.to_nat maxAttempts) with 0%nat by lia.
  change (@nil Event) with (@nil Event ++ []).
  eapply yields_bind; [apply yields_log | apply yields_throw].
Qed.

(* ===================================================================== *)
(** ** Further properties of [polymerProof] *)
(* ===================================================================== *)

(** X7.  Job-only mode: when the log is resolved and the service accepts
    the submission with job identifier [jobId], [polymerProof] with
    [returnJob: true] returns [{ jobId, receipt }] with the receipt it was
    given, after exactly one round trip, the submission; it does not poll
    and sets no timer, whatever [maxAttempts] and [interval] say. *)
Theorem polymerProof_returns_job_without_polling
    (remote : Remote) (keccak256 : list Byte.byte -> string)
    (client : PublicClient) (config : Config.t) (chain : Js.number)
    (R : TransactionReceipt) (eventSignature : option string)
    (logIndex : option Js.number) (maxAttempts interval : option Z)
    (idx : Js.number) (jobId : string) (w : World) :
  chain_id client = Some chain ->
  Js.truthy_number chain = true ->
  resolveLogIndex keccak256 R eventSignature logIndex = Returned (Some idx) ->
  let submission :=
    proofRequest config chain (blockNumberField (blockNumber R))
      (transactionIndex R) idx in
  requestProofReply remote (round_trips w) submission = RpcSuccess jobId ->
  let run :=
    polymerProof remote keccak256 client config
      (Options.mk (Some R) eventSignature logIndex maxAttempts interval (Some true)) w in
  fst run = Returned (ResultJob jobId R) /\
  effects (snd run) = effects w ++ [Fetch submission] /\
  round_trips (snd run) = S (round_trips w) /\
  delays (snd run) = delays w.
Proof.
  intros Hc Ht Hres submission Hr run.
  pose proof (polymerProof_job remote keccak256 client config chain R
                eventSignature logIndex maxAttempts interval (Some true) idx
                Hc Ht Hres w jobId Hr eq_refl) as H.
  apply yields_observe in H. destruct H as [H1 H2]. fold run in H1, H2.
  repeat split; [exact H1 | exact H2 | |].
  - rewrite (round_trips_extend _ _ _ H2). cbn. lia.
  - rewrite (delays_extend _ _ _ H2). cbn. lia.
Qed.

Lemma polymerProof_returns_job_without_polling_witness :
  let run :=
    polymerProof (scripted "job-1" []) demo_hash demo_client testConfig
      (Options.mk (Some demo_receipt) (Some "Transfer(address,address,uint256)")
         None None None (Some true)) [] in
  fst run = Returned (ResultJob "job-1" demo_receipt) /\
  effects (snd run)
  = [Fetch (proofRequest testConfig (Js.Number 11155420) (Js.Number 12345)
              (Js.Number 7) (Js.Number 2))] /\
  round_trips (snd run) = 1%nat /\
  delays (snd run) = 0%nat.
Proof.
  apply (polymerProof_returns_job_without_polling (scripted "job-1" [])
           demo_hash demo_client testConfig (Js.Number 11155420) demo_receipt
           (Some "Transfer(address,address,uint256)") None None None
           (Js.Number 2) "job-1" []).
  - reflexivity.
  - vm_compute. reflexivity.
  - vm_compute. reflexivity.
  - reflexivity.
Defined.

(** X8.  A failed submission ends [polymerProof]: when the log is resolved
    but the round trip of the submission fails (rejected fetch, non-ok HTTP
    status or error envelope), [polymerProof] throws that failure after
    this single round trip; it neither retries the submission nor starts
    to poll, in either mode. *)
Theorem polymerProof_submission_failure_stops
    (remote : Remote) (keccak256 : list Byte.byte -> string)
    (client : PublicClient) (config : Config.t) (chain : Js.number)
    (R : TransactionReceipt) (eventSignature : option string)
    (logIndex : option Js.number) (maxAttempts interval : option Z)
    (returnJob : option bool) (idx : Js.number) (e : Js.Error) (w : World) :
  chain_id client = Some chain ->
  Js.truthy_number chain = true ->
  resolveLogIndex keccak256 R eventSignature logIndex = Returned (Some idx) ->
  let submission :=
    proofRequest config chain (blockNumberField (blockNumber R))
      (transactionIndex R) idx in
  reply_outcome (requestProofReply remote (round_trips w) submission) = Thrown e ->
  let run :=
    polymerProof remote keccak256 client config
      (Options.mk (Some R) eventSignature logIndex maxAttempts interval returnJob) w in
  fst run = Thrown e /\
  effects (snd run) = effects w ++ [Fetch submission] /\
  round_trips (snd run) = S (round_trips w).
Proof.
  intros Hc Ht Hres submission Hr run.
  pose proof (polymerProof_submission_fails remote keccak256 client config chain R
                eventSignature logIndex maxAttempts interval returnJob idx
                Hc Ht Hres w e Hr) as H.
  apply yields_observe in H. destruct H as [H1 H2]. fold run in H1, H2.
  repeat split; [exact H1 | exact H2 |].
  rewrite (round_trips_extend _ _ _ H2). cbn. lia.
Qed.

Lemma polymerProof_submission_failure_stops_witness :
  let run :=
    polymerProof (refusing 503) demo_hash demo_client testConfig
      (Options.mk (Some demo_receipt) None (Some (Js.Number 0)) None None None) [] in
  fst run = Thrown (Js.mkError "HTTP error! status: 503") /\
  effects (snd run)
  = [Fetch (proofRequest testConfig (Js.Number 11155420) (Js.Number 12345)
              (Js.Number 7) (Js.Number 0))] /\
  round_trips (snd run) = 1%nat.
Proof.
  apply (polymerProof_submission_failure_stops (refusing 503) demo_hash
           demo_client testConfig (Js.Number 11155420) demo_receipt
           None (Some (Js.Number 0)) None None None (Js.Number 0)
           (Js.mkError "HTTP error! status: 503") []).
  - reflexivity.
  - vm_compute. reflexivity.
  - vm_compute. reflexivity.
  - vm_compute. reflexivity.
Defined.

(** X9.  End to end: when the log is resolved, the service accepts the
    submission with [jobId] and then answers the status queries for
    [jobId] with the non-terminal statuses [before] followed by a
    [complete] status [last], and the attempts allowed (the per-call
    [maxAttempts], or the configured one when it is not given) are at
    least [length before + 1], then [polymerProof] without [returnJob]
    returns [last]; its round trips are the submission followed by
    [length before + 1] status queries for that very [jobId], the queries
    separated by delays of the per-call (or else configured) interval. *)
Theorem polymerProof_end_to_end
    (remote : Remote) (keccak256 : list Byte.byte -> string)
    (client : PublicClient) (config : Config.t) (chain : Js.number)
    (R : TransactionReceipt) (eventSignature : option string)
    (logIndex : option Js.number) (maxAttempts interval : option Z)
    (returnJob : option bool) (idx : Js.number) (jobId : string)
    (before : list ProofJobStatus) (last : ProofJobStatus) (w : World) :
  chain_id client = Some chain ->
  Js.truthy_number chain = true ->
  resolveLogIndex keccak256 R eventSignature logIndex = Returned (Some idx) ->
  or_default returnJob false = false ->
  let submission :=
    proofRequest config chain (blockNumberField (blockNumber R))
      (transactionIndex R) idx in
  requestProofReply remote (round_trips w) submission = RpcSuccess jobId ->
  Forall non_terminal before ->
  status last = complete ->
  Z.of_nat (List.length before) + 1
  <= or_default maxAttempts (Config.maxAttempts config) ->
  answers remote (w ++ [Fetch submission]) config jobId (before ++ [last]) ->
  let run :=
    polymerProof remote keccak256 client config
      (Options.mk (Some R) eventSignature logIndex maxAttempts interval returnJob) w in
  fst run = Returned (ResultStatus last) /\
  effects (snd run)
  = effects w
    ++ Fetch submission
       :: poll_trace (queryRequest config jobId)
            (or_default interval (Config.interval config)) (List.length before)
       ++ [Fetch (queryRequest config jobId)] /\
  round_trips (snd run) = (round_trips w + List.length before + 2)%nat.
Proof.
  intros Hc Ht Hres Hj submission Hr NT C Hle Hans run.
  pose proof (polymerProof_polls remote keccak256 client config chain R
                eventSignature logIndex maxAttempts interval returnJob idx
                Hc Ht Hres w jobId (Returned last)
                (poll_trace (queryRequest config jobId)
                   (or_default interval (Config.interval config))
                   (List.length before)
                 ++ [Fetch (queryRequest config jobId)]) Hr Hj) as H.
  cbv zeta in H.
  assert (K : forall w',
    effects w' = effects w ++ [Fetch submission] ->
    yields (wait remote config jobId
              (or_default maxAttempts (Config.maxAttempts config))
              (or_default interval (Config.interval config))) w' (Returned last)
      (poll_trace (queryRequest config jobId)
         (or_default interval (Config.interval config)) (List.length before)
       ++ [Fetch (queryRequest config jobId)])).
  { intros w' Hw'. apply wait_complete_yields; try assumption.
    apply (answers_same_round_trips remote (w ++ [Fetch submission]) w');
      [|exact Hans].
    rewrite round_trips_snoc, (round_trips_extend _ _ _ Hw'). reflexivity. }
  specialize (H K). apply yields_observe in H. destruct H as [H1 H2].
  fold run in H1, H2.
  repeat split; [exact H1 | exact H2 |].
  rewrite (round_trips_extend _ _ _ H2). cbn [filter is_fetch List.length].
  rewrite filter_app, length_app, poll_trace_fetches. cbn. lia.
Qed.

Lemma polymerProof_end_to_end_witness :
  let remote :=
    scripted "job-1" [status_of pending; status_of generating; proved "0xabc"] in
  let run :=
    polymerProof remote demo_hash demo_client testConfig
      (Options.mk (Some demo_receipt) (Some "Transfer(address,address,uint256)")
         None (Some 15) (Some 4000) None) [] in
  fst run = Returned (ResultStatus (proved "0xabc")) /\
  effects (snd run)
  = Fetch (proofRequest testConfig (Js.Number 11155420) (Js.Number 12345)
             (Js.Number 7) (Js.Number 2))
    :: poll_trace (queryRequest testConfig "job-1") 4000 1
    ++ [Fetch (queryRequest testConfig "job-1")] /\
  round_trips (snd run) = 3%nat.
Proof.
  intros remote.
  apply (polymerProof_end_to_end remote demo_hash demo_client testConfig
           (Js.Number 11155420) demo_receipt
           (Some "Transfer(address,address,uint256)") None (Some 15) (Some 4000)
           None (Js.Number 2) "job-1" [status_of generating] (proved "0xabc") []).
  - reflexivity.
  - vm_compute. reflexivity.
  - vm_compute. reflexivity.
  - reflexivity.
  - reflexivity.
  - repeat constructor.
  - reflexivity.
  - cbn. lia.
  - intros i st H. subst remote. destruct i as [|[|i]]; cbn in *;
      try (inversion H; subst; reflexivity).
    destruct i; discriminate.
Defined.

(** X10.  A per-call [maxAttempts] of zero (or less) is honoured by
    [polymerProof], unlike by [polymer.wait]: the default applies only
    when the option is absent.  After a successful submission
    [polymerProof] then throws the time-out at once, having made the
    submission as its only round trip and not a single status query. *)
Theorem polymerProof_zero_attempts_are_honoured
    (remote : Remote) (keccak256 : list Byte.byte -> string)
    (client : PublicClient) (config : Config.t) (chain : Js.number)
    (R : TransactionReceipt) (eventSignature : option string)
    (logIndex : option Js.number) (maxAttempts : Z) (interval : option Z)
    (returnJob : option bool) (idx : Js.number) (jobId : string) (w : World) :
  chain_id client = Some chain ->
  Js.truthy_number chain = true ->
  resolveLogIndex keccak256 R eventSignature logIndex = Returned (Some idx) ->
  or_default returnJob false = false ->
  maxAttempts <= 0 ->
  let submission :=
    proofRequest config chain (blockNumberField (blockNumber R))
      (transactionIndex R) idx in
  requestProofReply remote (round_trips w) submission = RpcSuccess jobId ->
  let run :=
    polymerProof remote keccak256 client config
      (Options.mk (Some R) eventSignature logIndex (Some maxAttempts) interval
         returnJob) w in
  fst run = Thrown (Errors.ProofGenerationTimedOut maxAttempts) /\
  effects (snd run) = effects w ++ [Fetch submission].
Proof.
  intros Hc Ht Hres Hj Hle submission Hr run.
  pose proof (polymerProof_polls remote keccak256 client config chain R
                eventSignature logIndex (Some maxAttempts) interval returnJob idx
                Hc Ht Hres w jobId
                (Thrown (Errors.ProofGenerationTimedOut maxAttempts)) []
                Hr Hj) as H.
  cbv zeta in H. cbn [or_default] in H.
  specialize (H (fun w' _ => wait_no_attempts_yields remote config jobId
                               maxAttempts _ w' Hle)).
  apply yields_observe in H. destruct H as [H1 H2]. fold run in H1, H2.
  split; [exact H1 | exact H2].
Qed.

Lemma polymerProof_zero_attempts_are_honoured_witness :
  let run :=
    polymerProof (scripted "job-1" []) demo_hash demo_client testConfig
      (Options.mk (Some demo_receipt) None (Some (Js.Number 0)) (Some 0) None None)
      [] in
  fst run = Thrown (Errors.ProofGenerationTimedOut 0) /\
  effects (snd run)
  = [Fetch (proofRequest testConfig (Js.Number 11155420) (Js.Number 12345)
              (Js.Number 7) (Js.Number 0))].
Proof.
  apply (polymerProof_zero_attempts_are_honoured (scripted "job-1" [])
           demo_hash demo_client testConfig (Js.Number 11155420) demo_receipt
           None (Some (Js.Number 0)) 0 None None (Js.Number 0) "job-1" []).
  - reflexivity.
  - vm_compute. reflexivity.
  - vm_compute. reflexivity.
  - reflexivity.
  - lia.
  - reflexivity.
Defined.

(** X11.  [polymerProof] checks its context before the selector: without
    a receipt it throws "Transaction receipt is required", and with a
    receipt but no usable chain id in the client (no chain, or a chain id
    of [0], [-0] or [NaN], which are falsy) it throws "Chain ID not found in
    client".  In both cases nothing has happened (no console line, no
    round trip), and the selector, valid or not, does not matter. *)
Theorem polymerProof_requires_receipt_and_chain
    (remote : Remote) (keccak256 : list Byte.byte -> string)
    (client : PublicClient) (config : Config.t) (R : TransactionReceipt)
    (eventSignature : option string) (logIndex : option Js.number)
    (maxAttempts interval : option Z) (returnJob : option bool)
    (negative : bool) (w : World) :
  let without_receipt :=
    Options.mk None eventSignature logIndex maxAttempts interval returnJob in
  let options :=
    Options.mk (Some R) eventSignature logIndex maxAttempts interval returnJob in
  polymerProof remote keccak256 client config without_receipt w
  = (Thrown (Js.mkError "Transaction receipt is required"), w) /\
  polymerProof remote keccak256 (mkClient None) config options w
  = (Thrown Errors.MissingChainContext, w) /\
  polymerProof remote keccak256 (mkClient (Some (S754_zero negative))) config options w
  = (Thrown Errors.MissingChainContext, w) /\
  polymerProof remote keccak256 (mkClient (Some S754_nan)) config options w
  = (Thrown Errors.MissingChainContext, w).
Proof. cbv zeta. repeat split; reflexivity. Qed.

(** X12.  The plugin cannot be built without an API key: with an empty
    [apiKey], [polymer(config)(client)] throws "Polymer API key is
    required" and nothing has happened.  With a non-empty key it returns
    the extension, having made no round trip and set no timer; the
    [polymer.queryProofStatus] and [polymer.wait] of that extension refuse
    an empty job identifier without touching the world. *)
Theorem polymer_requires_api_key
    (remote : Remote) (keccak256 : list Byte.byte -> string)
    (config : PolymerConfig.t) (client : PublicClient) (w : World) :
  match PolymerConfig.apiKey config with
  | EmptyString =>
      polymer remote keccak256 config client w
      = (Thrown (Js.mkError "Polymer API key is required"), w)
  | String _ _ =>
      exists extension w',
        polymer remote keccak256 config client w = (Returned extension, w') /\
        effects w' = effects w /\
        (forall v,
            ext_queryProofStatus extension EmptyString v
            = (Thrown (Js.mkError "Job ID is required"), v)) /\
        (forall maxAttempts interval v,
            ext_wait extension EmptyString maxAttempts interval v
            = (Thrown (Js.mkError "Job ID is required"), v))
  end.
Proof.
  destruct (PolymerConfig.apiKey config) as [|c s] eqn:K.
  - unfold polymer. cbn [mergeConfig Config.apiKey]. now rewrite K.
  - destruct (polymer_extension remote keccak256 config client w) as [w' [E1 E2]];
      [now rewrite K|].
    eexists. exists w'. split; [exact E1|]. split; [exact E2|].
    split; intros; reflexivity.
Qed.

(** X13.  The [timeout] of the configuration is never read: two
    configurations that differ only in [timeout] give the same run, console
    lines included, for every operation.  No round trip is bounded in time
    by the plugin. *)
Theorem timeout_is_never_used
    (remote : Remote) (keccak256 : list Byte.byte -> string)
    (client : PublicClient) (config : Config.t) (t1 t2 : Z) (w : World) :
  let c1 := with_timeout t1 config in
  let c2 := with_timeout t2 config in
  (forall options,
      polymerProof remote keccak256 client c1 options w
      = polymerProof remote keccak256 client c2 options w) /\
  (forall p,
      polymer_requestProof remote c1 p w = polymer_requestProof remote c2 p w) /\
  (forall jobId,
      polymer_queryProofStatus remote c1 jobId w
      = polymer_queryProofStatus remote c2 jobId w) /\
  (forall jobId maxAttempts interval,
      polymer_wait remote c1 jobId maxAttempts interval w
      = polymer_wait remote c2 jobId maxAttempts interval w).
Proof. cbv zeta. repeat split; intros; reflexivity. Qed.

(* ===================================================================== *)
(** ** Invariants of the events an operation adds *)
(* ===================================================================== *)

Lemma adds_only_ret {A : Type} Q (a : A) : adds_only Q (ret a).
Proof. intros w. exists []. cbn. split; [now rewrite app_nil_r | constructor]. Qed.

Lemma adds_only_throw {A : Type} Q e : adds_only Q (@throw A e).
Proof. intros w. exists []. cbn. split; [now rewrite app_nil_r | constructor]. Qed.

Lemma adds_only_lift {A : Type} Q (o : Outcome A) : adds_only Q (lift o).
Proof. intros w. exists []. cbn. split; [now rewrite app_nil_r | constructor]. Qed.

Lemma adds_only_emit (Q : Event -> Prop) e : Q e -> adds_only Q (emit e).
Proof. intros H w. exists [e]. split; [reflexivity | now constructor]. Qed.

Lemma adds_only_bind {A B : Type} Q (m : M A) (k : A -> M B) :
  adds_only Q m -> (forall a, adds_only Q (k a)) -> adds_only Q (bind m k).
Proof.
  intros Hm Hk w. unfold bind. destruct (Hm w) as [t1 [E1 F1]].
  destruct (m w) as [[a|e] w1]; cbn [snd] in *; subst w1.
  - destruct (Hk a (w ++ t1)) as [t2 [E2 F2]]. exists (t1 ++ t2).
    split; [now rewrite E2, app_assoc | now apply Forall_app].
  - now exists t1.
Qed.

Lemma adds_only_try_catch {A : Type} Q (m : M A) h :
  adds_only Q m -> (forall e, adds_only Q (h e)) -> adds_only Q (try_catch m h).
Proof.
  intros Hm Hh w. unfold try_catch. destruct (Hm w) as [t1 [E1 F1]].
  destruct (m w) as [[a|e] w1]; cbn [snd] in *; subst w1.
  - now exists t1.
  - destruct (Hh e (w ++ t1)) as [t2 [E2 F2]]. exists (t1 ++ t2).
    split; [now rewrite E2, app_assoc | now apply Forall_app].
Qed.

Lemma adds_only_unwrap {A : Type} Q (r : Reply A) : adds_only Q (unwrap r).
Proof. destruct r; cbn; (apply adds_only_throw || apply adds_only_ret). Qed.

Lemma adds_only_for_attempts {A : Type} Q (body : Z -> M (option A)) after :
  (forall attempt, adds_only Q (body attempt)) -> adds_only Q after ->
  forall remaining attempt, adds_only Q (for_attempts body after remaining attempt).
Proof.
  intros Hb Ha. induction remaining as [|r IH]; intros attempt; cbn [for_attempts].
  - exact Ha.
  - apply adds_only_bind; [apply Hb | intros [a|]; [apply adds_only_ret | apply IH]].
Qed.

Section EventInvariant.

Variable remote : Remote.
Variable keccak256 : list Byte.byte -> string.
Variable config : Config.t.
Variable Q : Event -> Prop.

Hypothesis Q_log :
  Config.debug config = true -> forall label args, Q (ConsoleLog label args).
Hypothesis Q_error :
  Config.debug config = true -> forall label args, Q (ConsoleError label args).
Hypothesis Q_submit : forall args, Q (Fetch (rpc config "log_requestProof" args)).
Hypothesis Q_query : forall args, Q (Fetch (rpc config "log_queryProof" args)).
Hypothesis Q_timer : forall ms, Q (SetTimeout ms).

Lemma adds_only_log label args :
  adds_only Q (Logger.log (createLogger (Config.debug config)) label args).
Proof.
  destruct (Config.debug config) eqn:D; cbn [createLogger Logger.log].
  - apply adds_only_emit. now apply Q_log.
  - apply adds_only_ret.
Qed.

Lemma adds_only_error label args :
  adds_only Q (Logger.error (createLogger (Config.debug config)) label args).
Proof.
  destruct (Config.debug config) eqn:D; cbn [createLogger Logger.error].
  - apply adds_only_emit. now apply Q_error.
  - apply adds_only_ret.
Qed.

Lemma adds_only_fetch {A : Type}
    (reply : Remote -> nat -> RpcRequest -> Reply A) req :
  Q (Fetch req) -> adds_only Q (fetch remote reply req).
Proof. intros H w. exists [Fetch req]. split; [reflexivity | now constructor]. Qed.

Lemma adds_only_requestProof chain block tx idx :
  adds_only Q (requestProof remote config chain block tx idx).
Proof.
  unfold requestProof.
  apply adds_only_bind; [apply adds_only_log | intros _].
  apply adds_only_try_catch.
  - apply adds_only_bind; [apply adds_only_fetch, Q_submit | intros r].
    apply adds_only_unwrap.
  - intros e. apply adds_only_bind; [apply adds_only_error | intros _].
    apply adds_only_throw.
Qed.

Lemma adds_only_queryProofStatus jobId :
  adds_only Q (queryProofStatus remote config jobId).
Proof.
  unfold queryProofStatus.
  apply adds_only_bind; [apply adds_only_log | intros _].
  apply adds_only_try_catch.
  - apply adds_only_bind; [apply adds_only_fetch, Q_query | intros r].
    apply adds_only_unwrap.
  - intros e. apply adds_only_bind; [apply adds_only_error | intros _].
    apply adds_only_throw.
Qed.

Lemma adds_only_wait_attempt jobId maxAttempts interval attempt :
  adds_only Q (wait_attempt remote config jobId maxAttempts interval attempt).
Proof.
  unfold wait_attempt.
  apply adds_only_bind; [apply adds_only_log | intros _].
  apply adds_only_bind; [apply adds_only_queryProofStatus | intros result].
  destruct (status result).
  3:{ apply adds_only_bind; [apply adds_only_log | intros _; apply adds_only_ret]. }
  3:{ apply adds_only_throw. }
  all: apply adds_only_bind; [|intros _; apply adds_only_ret];
       destruct (attempt <? maxAttempts); [|apply adds_only_ret];
       (apply adds_only_bind; [apply adds_only_log | intros _]);
       apply adds_only_emit, Q_timer.
Qed.

Lemma adds_only_wait jobId maxAttempts interval :
  adds_only Q (wait remote config jobId maxAttempts interval).
Proof.
  unfold wait. apply adds_only_bind; [apply adds_only_log | intros _].
  apply adds_only_for_attempts;
    [intros; apply adds_only_wait_attempt | apply adds_only_throw].
Qed.

Lemma adds_only_polymerProof client options :
  adds_only Q (polymerProof remote keccak256 client config options).
Proof.
  unfold polymerProof.
  destruct (Options.receipt options) as [receipt|]; [|apply adds_only_throw].
  destruct (negb _); [apply adds_only_throw|].
  apply adds_only_bind; [apply adds_only_lift | intros localLogIndex].
  apply adds_only_bind; [apply adds_only_log | intros _].
  apply adds_only_bind; [apply adds_only_requestProof | intros jobId].
  apply adds_only_bind; [apply adds_only_log | intros _].
  destruct (or_default (Options.returnJob options) false);
    [apply adds_only_ret|].
  apply adds_only_bind; [apply adds_only_wait | intros; apply adds_only_ret].
Qed.

Lemma adds_only_polymer_queryProofStatus jobId :
  adds_only Q (polymer_queryProofStatus remote config jobId).
Proof.
  unfold polymer_queryProofStatus.
  destruct (negb _); [apply adds_only_throw | apply adds_only_queryProofStatus].
Qed.

Lemma adds_only_polymer_wait jobId maxAttempts interval :
  adds_only Q (polymer_wait remote config jobId maxAttempts interval).
Proof.
  unfold polymer_wait.
  destruct (negb _); [apply adds_only_throw | apply adds_only_wait].
Qed.

End EventInvariant.

(** X14.  Every round trip of every operation goes to the configured
    [apiUrl], carries "Bearer " followed by the configured [apiKey] as
    authorization, and calls [log_requestProof] or [log_queryProof]: the
    key is sent nowhere else, and events of the past are left in place. *)
Theorem requests_go_to_the_configured_endpoint
    (remote : Remote) (keccak256 : list Byte.byte -> string)
    (client : PublicClient) (config : Config.t) :
  (forall options,
      adds_only (addressed_to config)
        (polymerProof remote keccak256 client config options)) /\
  (forall p,
      adds_only (addressed_to config) (polymer_requestProof remote config p)) /\
  (forall jobId,
      adds_only (addressed_to config)
        (polymer_queryProofStatus remote config jobId)) /\
  (forall jobId maxAttempts interval,
      adds_only (addressed_to config)
        (polymer_wait remote config jobId maxAttempts interval)).
Proof.
  assert (S : forall args, addressed_to config (Fetch (rpc config "log_requestProof" args)))
    by (intros; cbn; auto).
  assert (T : forall args, addressed_to config (Fetch (rpc config "log_queryProof" args)))
    by (intros; cbn; auto).
  repeat split; intros.
  - apply adds_only_polymerProof; cbn; auto.
  - apply adds_only_requestProof; cbn; auto.
  - apply adds_only_polymer_queryProofStatus; cbn; auto.
  - apply adds_only_polymer_wait; cbn; auto.
Qed.

(** X15.  With [debug] off the plugin is silent: no operation writes a
    console line, whatever happens (failures included). *)
Theorem no_console_output_without_debug
    (remote : Remote) (keccak256 : list Byte.byte -> string)
    (client : PublicClient) (config : Config.t) :
  let quiet := with_debug false config in
  (forall options,
      adds_only not_console (polymerProof remote keccak256 client quiet options)) /\
  (forall p, adds_only not_console (polymer_requestProof remote quiet p)) /\
  (forall jobId,
      adds_only not_console (polymer_queryProofStatus remote quiet jobId)) /\
  (forall jobId maxAttempts interval,
      adds_only not_console (polymer_wait remote quiet jobId maxAttempts interval)).
Proof.
  cbv zeta. repeat split; intros.
  - apply adds_only_polymerProof; cbn; intros; (discriminate || reflexivity).
  - apply adds_only_requestProof; cbn; intros; (discriminate || reflexivity).
  - apply adds_only_polymer_queryProofStatus; cbn; intros;
      (discriminate || reflexivity).
  - apply adds_only_polymer_wait; cbn; intros; (discriminate || reflexivity).
Qed.

(* ===================================================================== *)
(** ** Coordinates as exact integers *)
(* ===================================================================== *)

Lemma first_match_in_range {A : Type} (p : A -> bool) (l : list A) k :
  first_match p l k -> (k < List.length l)%nat.
Proof.
  intros [[x [Hx _]] _]. apply nth_error_Some. congruence.
Qed.

Lemma to_integer_JNumber_inj (x y : Js.number) a b :
  Js.to_integer x = Some a -> Js.to_integer y = Some b -> x = y -> a = b.
Proof. intros Hx Hy E. subst y. congruence. Qed.

(** X16.  The log index that a signature scan resolves is the exact
    integer position of a log of the receipt whose leading topic is the
    hash of the signature (for a receipt with fewer than 2^53 logs): the
    conversion of the position to a number loses nothing and the position
    is within bounds. *)
Theorem resolved_signature_index_is_a_log_position
    (keccak256 : list Byte.byte -> string) (R : TransactionReceipt)
    (c : ascii) (s : string) (idx : Js.number) :
  resolveLogIndex keccak256 R (Some (String c s)) None = Returned (Some idx) ->
  Z.of_nat (List.length (logs R)) < 2 ^ 53 ->
  exists (n : nat) (log : Log),
    Js.to_integer idx = Some (Z.of_nat n) /\
    (n < List.length (logs R))%nat /\
    nth_error (logs R) n = Some log /\
    leading_topic_is (keccak256 (Js.toBytes (String c s))) log = true.
Proof.
  intros H Hlen. rewrite resolve_by_signature in H. cbv zeta in H.
  destruct (first_match_or_none
              (leading_topic_is (keccak256 (Js.toBytes (String c s)))) (logs R))
    as [[k Hk]|Hn].
  - pose proof (first_match_in_range _ _ _ Hk) as Hr.
    unfold Js.findIndex in H. rewrite (findIndex_from_first _ _ k 0 Hk) in H.
    replace (0 + Z.of_nat k =? -1) with false in H
      by (symmetry; apply Z.eqb_neq; lia).
    inversion H; subst idx. destruct Hk as [[log [Hlog Plog]] _].
    exists k, log. repeat split; try assumption.
    cbn [Z.add]. apply Number_exact_safe. lia.
  - unfold Js.findIndex in H. rewrite (findIndex_from_none _ _ 0 Hn) in H.
    discriminate.
Qed.

Lemma resolved_signature_index_is_a_log_position_witness :
  exists (n : nat) (log : Log),
    Js.to_integer (Js.Number 2) = Some (Z.of_nat n) /\
    (n < List.length (logs demo_receipt))%nat /\
    nth_error (logs demo_receipt) n = Some log /\
    leading_topic_is
      (demo_hash (Js.toBytes "Transfer(address,address,uint256)")) log = true.
Proof.
  apply (resolved_signature_index_is_a_log_position demo_hash demo_receipt
           "T"%char "ransfer(address,address,uint256)" (Js.Number 2)).
  - vm_compute. reflexivity.
  - vm_compute. reflexivity.
Defined.

(** X17.  A bigint block number within the safe integer range
    (|b| < 2^53) is transmitted exactly: the number in the request denotes
    [b], and two such block numbers give the same request only when they
    are equal. *)
Theorem safe_block_numbers_are_sent_exactly
    (remote : Remote) (config : Config.t)
    (srcChainId txIndex localLogIndex : Js.number) (b1 b2 : Z) (w : World) :
  Z.abs b1 < 2 ^ 53 ->
  Z.abs b2 < 2 ^ 53 ->
  let run b :=
    requestProof remote config srcChainId (BlockNumber_bigint b) txIndex
      localLogIndex w in
  (exists x,
      effects (snd (run b1))
      = effects w
        ++ [Fetch (rpc config "log_requestProof"
                     [JNumber srcChainId; JNumber x; JNumber txIndex;
                      JNumber localLogIndex])] /\
      Js.to_integer x = Some b1) /\
  (effects (snd (run b1)) = effects (snd (run b2)) <-> b1 = b2).
Proof.
  intros H1 H2 run.
  pose proof (requestProof_run remote config srcChainId (BlockNumber_bigint b1)
                txIndex localLogIndex w) as [_ E1].
  pose proof (requestProof_run remote config srcChainId (BlockNumber_bigint b2)
                txIndex localLogIndex w) as [_ E2].
  fold (run b1) in E1. fold (run b2) in E2. cbn [blockNumberField] in E1, E2.
  split.
  - exists (Js.Number b1). split; [exact E1 | now apply Number_exact_safe].
  - split; [|intros ->; reflexivity].
    intros E. rewrite E1, E2 in E. apply app_inv_head in E.
    inversion E as [N].
    apply (to_integer_JNumber_inj (Js.Number b1) (Js.Number b2));
      auto using Number_exact_safe.
Qed.

Lemma safe_block_numbers_are_sent_exactly_witness :
  let run b :=
    requestProof (scripted "job-1" []) testConfig (Js.Number 1)
      (BlockNumber_bigint b) (Js.Number 7) (Js.Number 0) [] in
  (exists x,
      effects (snd (run 12345))
      = [Fetch (rpc testConfig "log_requestProof"
                  [JNumber (Js.Number 1); JNumber x; JNumber (Js.Number 7);
                   JNumber (Js.Number 0)])] /\
      Js.to_integer x = Some 12345) /\
  (effects (snd (run 12345)) = effects (snd (run 12346)) <-> 12345 = 12346).
Proof.
  apply (safe_block_numbers_are_sent_exactly (scripted "job-1" []) testConfig
           (Js.Number 1) (Js.Number 7) (Js.Number 0) 12345 12346 []).
  - vm_compute. reflexivity.
  - vm_compute. reflexivity.
Defined.

(* ===================================================================== *)
(** ** What the resolution reads of a receipt *)
(* ===================================================================== *)

Lemma findIndex_from_leading_topics topic (l1 l2 : list Log) :
  map (fun log => hd_error (topics log)) l1
  = map (fun log => hd_error (topics log)) l2 ->
  forall i,
    Js.findIndex_from (leading_topic_is topic) l1 i
    = Js.findIndex_from (leading_topic_is topic) l2 i.
Proof.
  revert l2. induction l1 as [|x l1 IH]; intros [|y l2] H i;
    try discriminate; [reflexivity|].
  cbn [map] in H. inversion H as [[Hh Ht]].
  cbn [Js.findIndex_from]. unfold leading_topic_is at 1 3.
  destruct (topics x) as [|tx ?], (topics y) as [|ty ?]; cbn in Hh;
    try discriminate.
  - now apply IH.
  - inversion Hh; subst. destruct (String.eqb ty topic); [reflexivity|].
    now apply IH.
Qed.

(** X18.  The resolution reads nothing of the receipt but the leading
    topic of each log: two receipts whose logs have the same leading
    topics, in the same order, resolve to the same log index or fail with
    the same error, whatever their other topics, block, transaction index
    and hash. *)
Theorem resolution_reads_only_leading_topics
    (keccak256 : list Byte.byte -> string) (R1 R2 : TransactionReceipt)
    (eventSignature : option string) (logIndex : option Js.number) :
  leading_topics R1 = leading_topics R2 ->
  resolveLogIndex keccak256 R1 eventSignature logIndex
  = resolveLogIndex keccak256 R2 eventSignature logIndex.
Proof.
  intros H. unfold resolveLogIndex, Js.findIndex.
  now rewrite (findIndex_from_leading_topics _ _ _ H).
Qed.

Lemma resolution_reads_only_leading_topics_witness :
  resolveLogIndex demo_hash demo_receipt
    (Some "Transfer(address,address,uint256)") None
  = resolveLogIndex demo_hash
      (mkReceipt (BlockNumber_number (Js.Number 1)) (Js.Number 0) "0xother"
         [ mkLog ["Approval(address,address,uint256)"];
           mkLog [];
           mkLog ["Transfer(address,address,uint256)"; "0xa"; "0xb"; "0xc"];
           mkLog ["Transfer(address,address,uint256)"] ])
      (Some "Transfer(address,address,uint256)") None.
Proof.
  apply (resolution_reads_only_leading_topics demo_hash demo_receipt).
  reflexivity.
Defined.

(* ===================================================================== *)
(** ** Job-only mode followed by [polymer.wait] *)
(* ===================================================================== *)

Lemma map_outcome_bind_ret {A B : Type} (m : M A) (f : A -> B) w :
  bind m (fun a => ret (f a)) w
  = (match fst (m w) with
     | Returned a => Returned (f a)
     | Thrown e => Thrown e
     end, snd (m w)).
Proof. unfold bind. destruct (m w) as [[a|e] w']; reflexivity. Qed.

(** X20.  The two ways to obtain a proof agree on integer poll values.
    When the log is resolved and the service accepts the submission with a
    non-empty [jobId], then [polymerProof] in job-only mode followed by
    [polymer.wait] on the returned job, with integers [maxAttempts] and
    [interval] that are both different from 0, ends like [polymerProof]
    called once with these values and no [returnJob]: the same status or
    the same error, after the same round trips and delays.  (A value of 0
    is outside the statement: [polymer.wait] replaces it by the configured
    value and [polymerProof] keeps it.) *)
Theorem job_mode_then_wait_is_polymerProof
    (remote : Remote) (keccak256 : list Byte.byte -> string)
    (client : PublicClient) (config : Config.t) (chain : Js.number)
    (R : TransactionReceipt) (eventSignature : option string)
    (logIndex : option Js.number) (idx : Js.number)
    (c : ascii) (s : string) (maxAttempts interval : Z)
    (ignoredAttempts ignoredInterval : option Z) (w : World) :
  chain_id client = Some chain ->
  Js.truthy_number chain = true ->
  resolveLogIndex keccak256 R eventSignature logIndex = Returned (Some idx) ->
  maxAttempts <> 0 ->
  interval <> 0 ->
  let jobId := String c s in
  requestProofReply remote (round_trips w)
    (proofRequest config chain (blockNumberField (blockNumber R))
       (transactionIndex R) idx)
  = RpcSuccess jobId ->
  let job_run :=
    polymerProof remote keccak256 client config
      (Options.mk (Some R) eventSignature logIndex ignoredAttempts ignoredInterval
         (Some true)) w in
  let waited :=
    polymer_wait remote config jobId (Some maxAttempts) (Some interval)
      (snd job_run) in
  let direct :=
    polymerProof remote keccak256 client config
      (Options.mk (Some R) eventSignature logIndex (Some maxAttempts)
         (Some interval) None) w in
  fst job_run = Returned (ResultJob jobId R) /\
  fst direct
  = match fst waited with
    | Returned st => Returned (ResultStatus st)
    | Thrown e => Thrown e
    end /\
  effects (snd direct) = effects (snd waited).
Proof.
  intros Hc Ht Hres HN HI jobId Hr job_run waited direct.
  pose proof (polymerProof_job remote keccak256 client config chain R
                eventSignature logIndex ignoredAttempts ignoredInterval
                (Some true) idx Hc Ht Hres w jobId Hr eq_refl) as J.
  apply yields_observe in J. destruct J as [J1 J2]. fold job_run in J1, J2.
  split; [exact J1|].
  assert (W : waited = wait remote config jobId maxAttempts interval (snd job_run)).
  { unfold waited, polymer_wait, jobId. cbn [Js.truthy_string negb Js.or_int].
    apply Z.eqb_neq in HN. apply Z.eqb_neq in HI. now rewrite HN, HI. }
  pose proof (polymerProof_pipeline remote keccak256 client config chain R
                eventSignature logIndex (Some maxAttempts) (Some interval) None
                idx Hc Ht Hres w w eq_refl) as P.
  fold direct in P. cbn [or_default] in P.
  pose proof (pipeline_submission remote config chain R idx w) as [S1 S2].
  rewrite Hr in S1. cbn [reply_outcome] in S1.
  unfold bind at 1 in P.
  destruct (requestProof remote config chain (blockNumber R)
              (transactionIndex R) idx w) as [o w2].
  cbn [fst snd] in S1, S2. subst o.
  rewrite map_outcome_bind_ret in P.
  assert (E : effects w2 = effects (snd job_run)) by now rewrite S2, J2.
  pose proof (wait_console remote config jobId maxAttempts interval w2
                (snd job_run) E) as C.
  rewrite <- W in C. unfold observe in P, C. cbn [fst snd] in P, C.
  inversion C as [[C1 C2]]. inversion P as [[P1 P2]].
  rewrite P1, P2, C1, C2. split; reflexivity.
Qed.

Lemma job_mode_then_wait_is_polymerProof_witness :
  let remote :=
    scripted "job-1" [status_of pending; status_of pending; proved "0xabc"] in
  let job_run :=
    polymerProof remote demo_hash demo_client testConfig
      (Options.mk (Some demo_receipt) None (Some (Js.Number 0)) None None
         (Some true)) [] in
  let waited := polymer_wait remote testConfig "job-1" (Some 5) (Some 1000)
                  (snd job_run) in
  let direct :=
    polymerProof remote demo_hash demo_client testConfig
      (Options.mk (Some demo_receipt) None (Some (Js.Number 0)) (Some 5)
         (Some 1000) None) [] in
  fst job_run = Returned (ResultJob "job-1" demo_receipt) /\
  fst direct
  = match fst waited with
    | Returned st => Returned (ResultStatus st)
    | Thrown e => Thrown e
    end /\
  effects (snd direct) = effects (snd waited).
Proof.
  intros remote.
  apply (job_mode_then_wait_is_polymerProof remote demo_hash demo_client
           testConfig (Js.Number 11155420) demo_receipt None
           (Some (Js.Number 0)) (Js.Number 0) "j"%char "ob-1" 5 1000 None None []).
  - reflexivity.
  - vm_compute. reflexivity.
  - vm_compute. reflexivity.
  - lia.
  - lia.
  - reflexivity.
Defined.

(* ===================================================================== *)
(** ** Integers as binary64 numbers *)
(* ===================================================================== *)

Lemma digits2_pos_upper (m : positive) :
  Zpos m < 2 ^ Zpos (digits2_pos m).
Proof.
  induction m as [m IH|m IH|]; cbn [digits2_pos]; [| |cbn; lia].
  - rewrite Pos2Z.inj_succ, Z.pow_succ_r by lia. lia.
  - rewrite Pos2Z.inj_succ, Z.pow_succ_r by lia. lia.
Qed.

(** The canonical form of [Number] on a positive bigint below 2^53. *)
Lemma Number_pos_canonical (m : positive) (sx : bool) :
  Zpos m < 2 ^ 53 ->
  exists mz,
    binary_round Js.prec Js.emax sx m 0
    = S754_finite sx mz (Zpos (digits2_pos m) - 53) /\
    Zpos mz = Zpos m * 2 ^ (53 - Zpos (digits2_pos m)) /\
    Zpos (digits2_pos mz) = 53.
Proof.
  intros H. pose proof (digits2_pos_safe m H) as D.
  pose proof (Pos2Z.is_pos (digits2_pos m)) as P.
  unfold binary_round.
  assert (F : fexp Js.prec Js.emax (Zpos (digits2_pos m) + 0)
              = Zpos (digits2_pos m) - 53).
  { unfold fexp, emin, Js.prec, Js.emax. lia. }
  rewrite F. unfold shl_align.
  destruct (Zpos (digits2_pos m) - 53 - 0) as [|d|d] eqn:E; [| lia |].
  - exists m. replace (Zpos (digits2_pos m) - 53) with 0 by lia.
    split; [apply binary_round_aux_53; lia|].
    split; [replace (53 - Zpos (digits2_pos m)) with 0 by lia; cbn; lia | lia].
  - exists (Pos.iter xO m d).
    assert (Dg : Zpos (digits2_pos (Pos.iter xO m d)) = 53)
      by (rewrite iter_xO_digits, Pos2Z.inj_add; lia).
    split; [apply binary_round_aux_53; [exact Dg | lia]|].
    split; [|exact Dg].
    rewrite iter_xO_value. f_equal. f_equal. lia.
Qed.

Lemma pow2_digits_gap (a b : positive) :
  Zpos (digits2_pos a) < Zpos (digits2_pos b) -> Zpos a < Zpos b.
Proof.
  intros H. pose proof (digits2_pos_upper a). pose proof (digits2_pos_lower b).
  assert (2 ^ Zpos (digits2_pos a) <= 2 ^ (Zpos (digits2_pos b) - 1))
    by (apply Z.pow_le_mono_r; lia).
  lia.
Qed.

Lemma SFcompare_Number_pos (a b : positive) :
  Zpos a < 2 ^ 53 -> Zpos b < 2 ^ 53 ->
  SFcompare (Js.Number (Zpos a)) (Js.Number (Zpos b)) = Some (Zpos a ?= Zpos b).
Proof.
  intros Ha Hb. unfold Js.Number, binary_normalize.
  destruct (Number_pos_canonical a false Ha) as [ma [Ea [Va _]]].
  destruct (Number_pos_canonical b false Hb) as [mb [Eb [Vb _]]].
  rewrite Ea, Eb. cbn [SFcompare]. f_equal.
  destruct (Z.compare_spec (Zpos (digits2_pos a) - 53) (Zpos (digits2_pos b) - 53))
    as [E|L|G].
  - assert (D : Zpos (digits2_pos a) = Zpos (digits2_pos b)) by lia.
    rewrite D in Va.
    rewrite Pos.compare_cont_spec. unfold Pos.switch_Eq.
    change (Pos.compare ma mb) with (Zpos ma ?= Zpos mb). rewrite Va, Vb.
    pose proof (digits2_pos_safe b Hb).
    assert (0 < 2 ^ (53 - Zpos (digits2_pos b))) by (apply Z.pow_pos_nonneg; lia).
    destruct (Z.compare_spec (Zpos a) (Zpos b)) as [E'|L'|G'].
    + rewrite E', Z.compare_refl. reflexivity.
    + replace (_ ?= _) with Lt; [reflexivity|].
      symmetry. apply Z.compare_lt_iff. nia.
    + replace (_ ?= _) with Gt; [reflexivity|].
      symmetry. apply Z.compare_gt_iff. nia.
  - symmetry. apply Z.compare_lt_iff. apply pow2_digits_gap. lia.
  - symmetry. apply Z.compare_gt_iff. apply pow2_digits_gap. lia.
Qed.

Lemma iter_pos_nat {A : Type} (f : A -> A) (p : positive) (x : A) :
  iter_pos f p x = Nat.iter (Pos.to_nat p) f x.
Proof.
  revert x. induction p as [p IH|p IH|]; intros x; cbn [iter_pos].
  - rewrite !IH, Pos2Nat.inj_xI. cbn [Nat.mul]. rewrite Nat.add_0_r.
    rewrite <- Nat.iter_add, <- Nat.iter_succ_r. reflexivity.
  - rewrite !IH, Pos2Nat.inj_xO. cbn [Nat.mul]. rewrite Nat.add_0_r.
    rewrite <- Nat.iter_add. reflexivity.
  - reflexivity.
Qed.

Lemma iter_xO_nat (p x : positive) :
  Pos.iter xO x p = Nat.iter (Pos.to_nat p) xO x.
Proof. apply Pos2Nat.inj_iter. Qed.

Lemma shr_1_exact (n : nat) (x : positive) :
  Nat.iter n shr_1
    {| shr_m := Zpos (Nat.iter n xO x); shr_r := false; shr_s := false |}
  = {| shr_m := Zpos x; shr_r := false; shr_s := false |}.
Proof.
  induction n as [|n IH]; [reflexivity|].
  rewrite Nat.iter_succ_r. cbn [Nat.iter shr_1 orb]. exact IH.
Qed.

Lemma shr_exact (p x : positive) :
  iter_pos shr_1 p
    {| shr_m := Zpos (Pos.iter xO x p); shr_r := false; shr_s := false |}
  = {| shr_m := Zpos x; shr_r := false; shr_s := false |}.
Proof. rewrite iter_pos_nat, iter_xO_nat. apply shr_1_exact. Qed.

(** A 53-digit mantissa followed by [p] zero bits is shifted down exactly. *)
Lemma binary_round_aux_shift (sx : bool) (x p : positive) (e : Z) :
  Zpos (digits2_pos x) = 53 ->
  -1074 <= e + Zpos p <= 971 ->
  binary_round_aux Js.prec Js.emax sx (Zpos (Pos.iter xO x p)) e loc_Exact
  = S754_finite sx x (e + Zpos p).
Proof.
  intros Hd He.
  assert (F1 : fexp Js.prec Js.emax (Zpos (digits2_pos (Pos.iter xO x p)) + e) - e
               = Zpos p).
  { rewrite iter_xO_digits, Pos2Z.inj_add, Hd.
    unfold fexp, emin, Js.prec, Js.emax. lia. }
  assert (F2 : fexp Js.prec Js.emax (53 + (e + Zpos p)) - (e + Zpos p) = 0).
  { unfold fexp, emin, Js.prec, Js.emax. lia. }
  unfold binary_round_aux, shr_fexp. cbn [Zdigits2 shr_record_of_loc].
  rewrite F1. cbn [shr]. rewrite shr_exact.
  cbn [shr_m loc_of_shr_record round_nearest_even Zdigits2 shr_record_of_loc].
  rewrite Hd, F2. cbn [shr shr_m].
  replace (e + Zpos p <=? Js.emax - Js.prec) with true; [reflexivity|].
  symmetry. apply Z.leb_le. unfold Js.emax, Js.prec. lia.
Qed.

Lemma iter_xO_split (x : positive) (a b : positive) :
  Pos.iter xO x (a + b) = Pos.iter xO (Pos.iter xO x b) a.
Proof. now rewrite Pos.iter_add. Qed.

(** Rounding [n * 2^52] at exponent -52 is rounding [n] at exponent 0. *)
Lemma binary_round_scaled (sx : bool) (n : positive) :
  Zpos n < 2 ^ 53 ->
  binary_round Js.prec Js.emax sx (Pos.iter xO n 52) (-52)
  = binary_round Js.prec Js.emax sx n 0.
Proof.
  intros H. pose proof (digits2_pos_safe n H) as D.
  pose proof (Pos2Z.is_pos (digits2_pos n)) as P.
  destruct (Number_pos_canonical n sx H) as [mz [E [V Dz]]]. rewrite E.
  unfold binary_round at 1.
  assert (F : fexp Js.prec Js.emax (Zpos (digits2_pos (Pos.iter xO n 52)) + -52)
              = Zpos (digits2_pos n) - 53).
  { rewrite iter_xO_digits, Pos2Z.inj_add. unfold fexp, emin, Js.prec, Js.emax. lia. }
  rewrite F. unfold shl_align.
  destruct (Zpos (digits2_pos n) - 53 - -52) as [|q|q] eqn:Q; [| |lia].
  - (* one digit: n * 2^52 already has 53 digits *)
    assert (mz = Pos.iter xO n 52).
    { apply Pos2Z.inj. rewrite V, iter_xO_value. f_equal. f_equal. lia. }
    subst mz. replace (Zpos (digits2_pos n) - 53) with (-52) by lia.
    apply binary_round_aux_53; [|lia].
    rewrite iter_xO_digits, Pos2Z.inj_add. lia.
  - (* [q = digits - 1] low bits are shifted out *)
    assert (Hq : Zpos q = Zpos (digits2_pos n) - 1) by lia.
    destruct (Z.eq_dec (Zpos q) 52) as [E52|N52].
    + assert (q = 52%positive) by lia. subst q.
      assert (mz = n).
      { apply Pos2Z.inj. rewrite V. replace (53 - Zpos (digits2_pos n)) with 0 by lia.
        lia. }
      subst mz.
      replace (Zpos (digits2_pos n) - 53) with (-52 + 52) by lia.
      apply binary_round_aux_shift; lia.
    + set (r := Z.to_pos (52 - Zpos q)).
      assert (Zr : Zpos r = 52 - Zpos q) by (unfold r; rewrite Z2Pos.id; lia).
      assert (S : Pos.iter xO n 52 = Pos.iter xO (Pos.iter xO n r) q).
      { rewrite <- iter_xO_split. f_equal. apply Pos2Z.inj.
        rewrite Pos2Z.inj_add. lia. }
      rewrite S.
      assert (mz = Pos.iter xO n r).
      { apply Pos2Z.inj. rewrite V, iter_xO_value. f_equal. f_equal. lia. }
      subst mz.
      replace (Zpos (digits2_pos n) - 53) with (-52 + Zpos q) by lia.
      apply binary_round_aux_shift; [|lia].
      rewrite iter_xO_digits, Pos2Z.inj_add. lia.
Qed.

Lemma Number_one : Js.Number 1 = S754_finite false 4503599627370496 (-52).
Proof. reflexivity. Qed.

(** Adding 1 to a positive integer number is exact below 2^53. *)
Lemma SFadd_Number_one (k : positive) :
  Zpos k + 1 < 2 ^ 53 ->
  SFadd Js.prec Js.emax (Js.Number (Zpos k)) (Js.Number 1) = Js.Number (Zpos k + 1).
Proof.
  intros H.
  assert (Hk : Zpos k < 2 ^ 53) by lia.
  pose proof (digits2_pos_safe k Hk) as D.
  pose proof (Pos2Z.is_pos (digits2_pos k)) as P.
  rewrite Number_one. unfold Js.Number at 1. unfold binary_normalize at 1.
  destruct (Number_pos_canonical k false Hk) as [mk [E [V Dk]]]. rewrite E.
  cbn [SFadd cond_Zopp].
  replace (Z.min (Zpos (digits2_pos k) - 53) (-52)) with (-52) by lia.
  assert (A : exists a,
             fst (shl_align mk (Zpos (digits2_pos k) - 53) (-52)) = a /\
             Zpos a = Zpos k * 2 ^ 52).
  { unfold shl_align.
    destruct (-52 - (Zpos (digits2_pos k) - 53)) as [|q|q] eqn:Q; [|lia|].
    - exists mk. split; [reflexivity|]. rewrite V. f_equal. f_equal. lia.
    - exists (Pos.iter xO mk q). split; [reflexivity|].
      rewrite iter_xO_value, V, <- Z.mul_assoc, <- Z.pow_add_r by lia.
      f_equal. f_equal. lia. }
  destruct A as [a [-> Va]].
  cbn [shl_align fst Z.sub Z.opp Z.add Z.pos_sub Pos.compare Pos.compare_cont].
  change (fst (shl_align 4503599627370496 (-52) (-52))) with 4503599627370496%positive.
  cbn [Z.add]. unfold binary_normalize.
  assert (S : (a + 4503599627370496)%positive = Pos.iter xO (k + 1)%positive 52).
  { apply Pos2Z.inj. rewrite iter_xO_value, !Pos2Z.inj_add, Va.
    change (Zpos 4503599627370496) with (2 ^ 52). change (Zpos 52) with 52. lia. }
  rewrite S, binary_round_scaled by (rewrite Pos2Z.inj_add; lia).
  reflexivity.
Qed.

Lemma Number_neg_form (m : positive) :
  Zpos m < 2 ^ 53 ->
  exists mz ez, Js.Number (Zneg m) = S754_finite true mz ez.
Proof.
  intros H. destruct (Number_pos_canonical m true H) as [mz [E _]].
  unfold Js.Number, binary_normalize. rewrite E. eauto.
Qed.

Lemma Number_pos_form (m : positive) :
  Zpos m < 2 ^ 53 ->
  exists mz ez, Js.Number (Zpos m) = S754_finite false mz ez.
Proof.
  intros H. destruct (Number_pos_canonical m false H) as [mz [E _]].
  unfold Js.Number, binary_normalize. rewrite E. eauto.
Qed.

(** Comparing a positive integer number with an integer number. *)
Lemma compare_Number (k : positive) (n : Z) :
  Zpos k < 2 ^ 53 -> Z.abs n < 2 ^ 53 ->
  SFcompare (Js.Number (Zpos k)) (Js.Number n) = Some (Zpos k ?= n).
Proof.
  intros Hk Hn. destruct n as [|n|n].
  - destruct (Number_pos_form k Hk) as [mz [ez ->]]. reflexivity.
  - apply SFcompare_Number_pos; lia.
  - destruct (Number_pos_form k Hk) as [mz [ez ->]].
    destruct (Number_neg_form n) as [mz' [ez' ->]]; [lia|]. reflexivity.
Qed.

Lemma le_Number (k n : Z) :
  1 <= k < 2 ^ 53 -> Z.abs n < 2 ^ 53 ->
  JsNum.le (Js.Number k) (Js.Number n) = (k <=? n).
Proof.
  intros Hk Hn. destruct k as [|k|k]; try lia.
  unfold JsNum.le, SFleb. rewrite compare_Number by lia.
  unfold Z.leb. destruct (Zpos k ?= n); reflexivity.
Qed.

Lemma lt_Number (k n : Z) :
  1 <= k < 2 ^ 53 -> Z.abs n < 2 ^ 53 ->
  Js.lt (Js.Number k) (Js.Number n) = (k <? n).
Proof.
  intros Hk Hn. destruct k as [|k|k]; try lia.
  unfold Js.lt, SFltb. rewrite compare_Number by lia.
  unfold Z.ltb. destruct (Zpos k ?= n); reflexivity.
Qed.

Lemma add_Number_one (k : Z) :
  1 <= k -> k + 1 < 2 ^ 53 ->
  JsNum.add (Js.Number k) JsNum.one = Js.Number (k + 1).
Proof.
  intros Hk H. destruct k as [|k|k]; try lia.
  now apply SFadd_Number_one.
Qed.

Section Integers.

Variable remote : Remote.
Variable number_to_string : Js.number -> string.
Variable config : Config.t.
Variable jobId : string.
Variables maxAttempts interval : Z.

Hypothesis integers_in_decimal :
  forall z, Z.abs z < 2 ^ 53 -> number_to_string (Js.Number z) = Js.string_of_int z.
Hypothesis bound_is_safe : Z.abs maxAttempts < 2 ^ 53 - 1.

Lemma wait_attempt_number_integer (attempt : Z) (w : World) :
  1 <= attempt < 2 ^ 53 ->
  wait_attempt_number remote number_to_string config jobId
    (Js.Number maxAttempts) interval (Js.Number attempt) w
  = wait_attempt remote config jobId maxAttempts interval attempt w.
Proof.
  intros Ha. unfold wait_attempt_number, wait_attempt.
  rewrite !integers_in_decimal by lia.
  rewrite lt_Number by lia. reflexivity.
Qed.

Lemma poll_number_integer :
  forall (remaining fuel : nat) (attempt : Z) (w : World),
    (remaining < fuel)%nat ->
    1 <= attempt ->
    remaining = Z.to_nat (maxAttempts - attempt + 1) ->
    attempt <= Z.max 1 (maxAttempts + 1) ->
    poll_number remote number_to_string fuel config jobId
      (Js.Number maxAttempts) interval (Js.Number attempt) w
    = Some (for_attempts (wait_attempt remote config jobId maxAttempts interval)
              (throw (Errors.ProofGenerationTimedOut maxAttempts))
              remaining attempt w).
Proof.
  induction remaining as [|r IH]; intros fuel attempt w Hf Ha Hr Hb;
    (destruct fuel as [|fuel]; [lia|]); cbn [poll_number for_attempts].
  - rewrite le_Number by lia.
    replace (attempt <=? maxAttempts) with false by (symmetry; apply Z.leb_gt; lia).
    rewrite integers_in_decimal by lia. reflexivity.
  - rewrite le_Number by lia.
    replace (attempt <=? maxAttempts) with true by (symmetry; apply Z.leb_le; lia).
    rewrite wait_attempt_number_integer by lia.
    unfold bind.
    destruct (wait_attempt remote config jobId maxAttempts interval attempt w)
      as [[[result|]|e] w']; try reflexivity.
    rewrite add_Number_one by lia.
    apply IH; lia.
Qed.

(** On an integer bound the general loop is [wait], given enough fuel. *)
Lemma wait_number_integer (fuel : nat) (w : World) :
  (Z.to_nat maxAttempts < fuel)%nat ->
  wait_number remote number_to_string fuel config jobId
    (Js.Number maxAttempts) interval w
  = Some (wait remote config jobId maxAttempts interval w).
Proof.
  intros Hf. unfold wait_number, wait.
  rewrite integers_in_decimal by lia.
  change JsNum.one with (Js.Number 1).
  rewrite poll_number_integer with (remaining := Z.to_nat maxAttempts); try lia.
  unfold bind.
  destruct (Logger.log _ _ _ w) as [[[]|e] w0] eqn:L; [reflexivity|].
  exfalso. unfold createLogger, Logger.log in L.
  destruct (Config.debug config); discriminate.
Qed.

End Integers.

(** The stand-in prints an integer number like the integer. *)
Lemma decimal_of_number_integer (z : Z) :
  Z.abs z < 2 ^ 53 -> decimal_of_number (Js.Number z) = Js.string_of_int z.
Proof.
  intros H. pose proof (Number_exact_safe z H) as T.
  destruct z as [|m|m]; [reflexivity | |].
  - destruct (Number_pos_form m) as [mz [ez E]]; [lia|].
    rewrite E in *. unfold decimal_of_number. now rewrite T.
  - destruct (Number_neg_form m) as [mz [ez E]]; [lia|].
    rewrite E in *. unfold decimal_of_number. now rewrite T.
Qed.

(* ===================================================================== *)
(** ** The poll loop on an integer and on a fractional bound *)
(* ===================================================================== *)

(** C2 (amended).  For every integer [maxAttempts] with
    [1 <= maxAttempts < 2^53 - 1], given to [wait] as a number, and every
    status sequence of at least [maxAttempts] statuses that are all
    non-terminal, [wait] ends (with fuel for [maxAttempts + 1] loop tests)
    and throws "Proof generation timed out after maxAttempts attempts"
    after exactly [maxAttempts] status queries and [maxAttempts - 1]
    delays; the last effect is the final query, so no delay follows it.
    The runtime is assumed to print an integer number in decimal. *)
Theorem wait_times_out
    (remote : Remote) (number_to_string : Js.number -> string)
    (config : Config.t) (jobId : string) (maxAttempts interval : Z)
    (statuses : list ProofJobStatus) (w : World) (fuel : nat) :
  (forall z, Z.abs z < 2 ^ 53 ->
             number_to_string (Js.Number z) = Js.string_of_int z) ->
  1 <= maxAttempts < 2 ^ 53 - 1 ->
  (Z.to_nat maxAttempts < fuel)%nat ->
  Forall non_terminal statuses ->
  maxAttempts <= Z.of_nat (List.length statuses) ->
  answers remote w config jobId statuses ->
  exists w',
    wait_number remote number_to_string fuel config jobId
      (Js.Number maxAttempts) interval w
    = Some (Thrown (Js.mkError ("Proof generation timed out after "
                                ++ Js.string_of_int maxAttempts
                                ++ " attempts")%string), w') /\
    effects w'
    = effects w
      ++ poll_trace (queryRequest config jobId) interval (Z.to_nat maxAttempts - 1)
      ++ [Fetch (queryRequest config jobId)] /\
    round_trips w' = (round_trips w + Z.to_nat maxAttempts)%nat /\
    delays w' = (delays w + (Z.to_nat maxAttempts - 1))%nat.
Proof.
  intros Hs Hm Hf NT Hlen Hans.
  rewrite (wait_number_integer remote number_to_string config jobId maxAttempts
             interval Hs) by lia.
  pose proof (wait_timeout_yields remote config jobId maxAttempts interval
                statuses w (proj1 Hm) NT Hlen Hans) as Y.
  pose proof (yields_poll_counts config jobId interval _ _ _ _ Y) as [R D].
  destruct Y as [Y1 Y2].
  destruct (wait remote config jobId maxAttempts interval w) as [o w'].
  cbn [fst snd] in *. subst o.
  exists w'. repeat split; [exact Y2 | lia | exact D].
Qed.

(** The run of the specification: [pending, pending, pending] with
    [maxAttempts = 3] throws after 3 queries and 2 delays, the last event
    being a query. *)
Lemma wait_times_out_witness :
  let statuses := [status_of pending; status_of pending; status_of pending] in
  let q := queryRequest testConfig "job-1" in
  exists w',
    wait_number (scripted "job-1" statuses) decimal_of_number 4 testConfig
      "job-1" (Js.Number 3) 3000 []
    = Some (Thrown (Js.mkError "Proof generation timed out after 3 attempts"), w') /\
    effects w' = poll_trace q 3000 2 ++ [Fetch q] /\
    round_trips w' = 3%nat /\
    delays w' = 2%nat.
Proof.
  intros statuses q.
  apply (wait_times_out (scripted "job-1" statuses) decimal_of_number testConfig
           "job-1" 3 3000 statuses [] 4).
  - exact decimal_of_number_integer.
  - lia.
  - cbn. lia.
  - repeat constructor.
  - cbn. lia.
  - intros i st H. subst statuses. cbn in *. now rewrite H.
Defined.

(** C2 as stated fails for a bound that is not an integer: with
    [maxAttempts = 2.5], which is at least 1, and a sequence of pending
    statuses, [wait] makes 2 status queries, sets a timer after each of
    them, the last one included, and only then throws the time-out. *)
Lemma wait_fractional_bound_ends_on_a_delay :
  let statuses := [status_of pending; status_of pending; status_of pending] in
  let q := queryRequest testConfig "job-1" in
  JsNum.le JsNum.one two_and_a_half = true /\
  Js.is_integer two_and_a_half = false /\
  answers (scripted "job-1" statuses) [] testConfig "job-1" statuses /\
  wait_number (scripted "job-1" statuses) decimal_of_number 10 testConfig
    "job-1" two_and_a_half 3000 []
  = Some (Thrown (Js.mkError "Proof generation timed out after 2.5 attempts"),
          [Fetch q; SetTimeout 3000; Fetch q; SetTimeout 3000]).
Proof.
  cbv zeta. split; [|split; [|split]].
  - vm_compute. reflexivity.
  - vm_compute. reflexivity.
  - intros i st H. cbn in *. now rewrite H.
  - vm_compute. reflexivity.
Qed.

(** X1.  For an integer [maxAttempts] (below 2^53 - 1 in magnitude, given
    as a number), whatever the service replies (statuses, error envelopes,
    failed round trips), [wait] ends (with fuel for [maxAttempts + 1] loop
    tests) and either makes no attempt at all, when [maxAttempts <= 0],
    and throws the time-out at once, or its effects are [n] polls that
    each end in a delay, followed by one last query, for some
    [n < maxAttempts]: every round trip is the status query for [jobId],
    every delay lasts [interval], no delay comes first or last, and there
    are at most [maxAttempts] round trips. *)
Theorem wait_trace_is_bounded
    (remote : Remote) (number_to_string : Js.number -> string)
    (config : Config.t) (jobId : string) (maxAttempts interval : Z)
    (w : World) (fuel : nat) :
  (forall z, Z.abs z < 2 ^ 53 ->
             number_to_string (Js.Number z) = Js.string_of_int z) ->
  Z.abs maxAttempts < 2 ^ 53 - 1 ->
  (Z.to_nat maxAttempts < fuel)%nat ->
  let q := queryRequest config jobId in
  exists o w',
    wait_number remote number_to_string fuel config jobId
      (Js.Number maxAttempts) interval w = Some (o, w') /\
    ((maxAttempts <= 0 /\
      effects w' = effects w /\
      o = Thrown (Js.mkError ("Proof generation timed out after "
                              ++ Js.string_of_int maxAttempts
                              ++ " attempts")%string)) \/
     (exists n : nat,
         Z.of_nat n < maxAttempts /\
         effects w' = effects w ++ poll_trace q interval n ++ [Fetch q])) /\
    (round_trips w' <= round_trips w + Z.to_nat maxAttempts)%nat /\
    (delays w' <= delays w + (Z.to_nat maxAttempts - 1))%nat.
Proof.
  intros Hs Hm Hf q.
  rewrite (wait_number_integer remote number_to_string config jobId maxAttempts
             interval Hs Hm) by lia.
  destruct (wait_shape remote config jobId maxAttempts interval w)
    as [o [t [[Y1 Y2] [_ [[Hle [-> Ho]] | [n [Hn ->]]]]]]].
  - rewrite app_nil_r in Y2.
    exists o, (snd (wait remote config jobId maxAttempts interval w)).
    split; [rewrite <- Y1; now destruct (wait _ _ _ _ _ w)|].
    split; [left; auto|].
    rewrite (round_trips_effects _ _ Y2).
    rewrite (delays_extend w _ []) by (now rewrite app_nil_r).
    cbn [filter List.length]. lia.
  - exists o, (snd (wait remote config jobId maxAttempts interval w)).
    split; [rewrite <- Y1; now destruct (wait _ _ _ _ _ w)|].
    split; [right; exists n; auto|].
    pose proof (yields_poll_counts config jobId interval _ _ _ _ (conj Y1 Y2))
      as [R D].
    rewrite R, D. lia.
Qed.

Lemma wait_trace_is_bounded_witness :
  let q := queryRequest testConfig "job-1" in
  exists o w',
    wait_number always_pending decimal_of_number 4 testConfig "job-1"
      (Js.Number 3) 3000 [] = Some (o, w') /\
    ((3 <= 0 /\
      effects w' = effects [] /\
      o = Thrown (Js.mkError ("Proof generation timed out after "
                              ++ Js.string_of_int 3 ++ " attempts")%string)) \/
     (exists n : nat,
         Z.of_nat n < 3 /\
         effects w' = effects [] ++ poll_trace q 3000 n ++ [Fetch q])) /\
    (round_trips w' <= round_trips [] + Z.to_nat 3)%nat /\
    (delays w' <= delays [] + (Z.to_nat 3 - 1))%nat.
Proof.
  apply (wait_trace_is_bounded always_pending decimal_of_number testConfig
           "job-1" 3 3000 [] 4).
  - exact decimal_of_number_integer.
  - cbn. lia.
  - cbn. lia.
Defined.
